(** * PathTrie: a trie over segmented string keys (package trie)

    A shallow embedding of the Go type [PathTrie[T]] and of its methods
    [Get], [Put], [Walk], [WalkPath], [Merge] and
    [RecursiveDirectChildren], and of [Delete], which the interface
    [Trier] declares, after the specification; followed by the
    properties the specification states about them.

    Conventions of the embedding.
    - A Go [string] is a byte sequence: [string] (a list of [ascii]).
    - [Value *T] is [option T]: [None] is the nil pointer.
    - [Children map[string]*PathTrie[T]] is a [gmap string (PathTrie T)].
      A nil map and an empty map both are [∅]: the methods only read a
      nil map, and [Put] allocates it before the first write.
    - The nodes form a tree (every node has one parent), so a method that
      updates a node in place is a function returning the updated tree.
    - Every node of one trie carries the segmenter of its root
      ([newPathTrie] copies it), so the segmenter is one parameter of the
      methods instead of a field of every node.
    - A run-time panic (nil dereference, slice out of range) is the
      result [Panic].
    - [range] over a map visits the keys in an order Go leaves open: the
      order is a parameter [range_keys]. *)

From Stdlib Require Import Ascii.
From stdpp Require Import gmap strings list fin_maps.

Set Warnings "-register-all,-clear-no-such-hyp".

(** ** Go results *)

(** The result of a Go expression that either yields a value or panics. *)
Inductive go (A : Type) : Type :=
  | Return (a : A)
  | Panic.
Arguments Return {A} a.
Arguments Panic {A}.

(** [len(key)], as a Go [int]. *)
Definition len (key : string) : Z := Z.of_nat (String.length key).

(** The slice expression [key[0:i]]: it panics unless [0 <= i <= len(key)]. *)
Definition slice_to (key : string) (i : Z) : go string :=
  if decide (0 ≤ i ≤ len key)%Z
  then Return (String.substring 0 (Z.to_nat i) key)
  else Panic.

(** The slice expression [key[i:]] for an index known to be in range. *)
Definition slice_from (key : string) (i : nat) : string :=
  String.substring i (String.length key - i) key.

(** ** The data model *)

(** [type PathTrie[T any] struct { segmenter; Value *T; Children map[string]*PathTrie[T] }] *)
Inductive PathTrie (T : Type) : Type :=
  Node { Value : option T; Children : gmap string (PathTrie T) }.
Arguments Node {T} Value Children.
Arguments Value {T} _.
Arguments Children {T} _.

(** [type StringSegmenter func(key string, start int) (segment string, nextIndex int)].
    The type is declared in another file of the package; its shape is
    the one every call [trie.segmenter(key, i)] has. *)
Definition StringSegmenter : Type := string → Z → string * Z.

(** Modelled from the spec: [WalkFunc[T]], the type of the callback of
    [Walk] and [WalkPath], is declared in another file of the package.
    The specification gives it as [callback(key, value) -> error]. A Go
    closure may keep state between calls: the walker threads a state of
    type [St], and returns [None] for a nil error. *)
Definition WalkFunc (T St Err : Type) : Type := string → T → St → St * option Err.

(** Modelled from the spec: [PathSegmenter], the default segmenter, is
    defined in another file of the package. The specification gives its
    contract (an empty segment when the key is exhausted, next index
    [-1] with the last segment); the comment on [PathTrie] gives its
    segments on ["/a/b/c"], namely ["/a"], ["/b"], ["/c"]: a segment
    starts at [start] and runs up to the next ['/'] after its first
    byte. The properties below are stated for any segmenter;
    [PathSegmenter] instantiates them. *)
Definition PathSegmenter : StringSegmenter := λ path start,
  if decide (len path = 0 ∨ start < 0 ∨ start > len path - 1)%Z then ("", (-1)%Z)
  else
    let from := Z.to_nat start in
    match String.index (S from) "/" path with
    | None => (slice_from path from, (-1)%Z)
    | Some next => (String.substring from (next - from) path, Z.of_nat next)
    end.
Arguments PathSegmenter path start%_Z.

Module Trie.

Section Model.
Context {T : Type}.
(** [*new(T)], the zero value of [T]. *)
Variable zero : T.
Variable segmenter : StringSegmenter.
(** The order in which one [range] loop visits the keys of a map. *)
Variable range_keys : gset string → list string.

(** [for k, a := range m { b = body(k, a, b) }]. The loop bodies below
    never remove a key they have not reached yet. *)
Definition range {A B : Type} (m : gmap string A) (body : string → A → B → B) (b : B) : B :=
  foldl (λ b k, match m !! k with Some a => body k a b | None => b end)
        b (range_keys (dom m)).

(** [NewPathTrie[T]()]: the empty root. *)
Definition NewPathTrie : PathTrie T := Node None ∅.

(** [trie.newPathTrie()]: a fresh node for [Put]. *)
Definition newPathTrie : PathTrie T := Node None ∅.

(** *** Get *)

(** The loop of [Get], entered at [node] with the segment [part] and the
    next index [i]. Each round descends one level, so the recursion is
    on the node; [below] holds the recursive call on every child, and
    looking [part] up in it is the lookup [node.Children[part]]
    followed by the next round on that child. *)
Fixpoint Get_loop (node : PathTrie T) (key part : string) (i : Z) : go T :=
  let below := Get_loop <$> Children node in
  if decide (part = "") then
    (* return *node.Value *)
    match Value node with Some v => Return v | None => Panic end
  else
    match below !! part with
    | None => Return zero
    | Some get_child =>
        let '(part', i') := segmenter key i in get_child key part' i'
    end.

Definition Get (trie : PathTrie T) (key : string) : go T :=
  let '(part, i) := segmenter key 0%Z in Get_loop trie key part i.

(** *** Put *)

(** The loop of [Put]. It runs as long as the segmenter yields non-empty
    segments, which the tree does not bound: [fuel] bounds the number
    of rounds, and [None] says the loop has not ended within it. *)
Fixpoint Put_loop (fuel : nat) (node : PathTrie T) (key part : string) (i : Z)
    (value : T) : option (PathTrie T) :=
  if decide (part = "") then
    (* node.Value = &value *)
    Some (Node (Some value) (Children node))
  else
    match fuel with
    | O => None
    | S fuel =>
        let child := default newPathTrie (Children node !! part) in
        let '(part', i') := segmenter key i in
        child' ← Put_loop fuel child key part' i' value;
        Some (Node (Value node) (<[part := child']> (Children node)))
    end.

(** [Put] has no result: it only updates the trie. *)
Definition Put (fuel : nat) (trie : PathTrie T) (key : string) (value : T)
    : option (PathTrie T) :=
  let '(part, i) := segmenter key 0%Z in Put_loop fuel trie key part i value.

(** *** Walk *)

Section Walks.
Context {St Err : Type}.
Variable walker : WalkFunc T St Err.

(** [trie.walk(key, walker)]: the state after the calls of the walker,
    and the error returned. *)
Fixpoint walk (trie : PathTrie T) (key : string) (s : St) : St * option Err :=
  let below := walk <$> Children trie in
  match
    match Value trie with
    | Some v => walker key v s
    | None => (s, None)
    end
  with
  | (s, Some err) => (s, Some err)
  | (s, None) =>
      range below
        (λ part walk_child r,
           match r with
           | (s, Some err) => (s, Some err) (* the loop has returned *)
           | (s, None) => walk_child (key +:+ part) s
           end)
        (s, None)
  end.

Definition Walk (trie : PathTrie T) (s : St) : St * option Err :=
  walk trie "" s.

(** The body of [if trie.Value != nil { ... walker(k, *trie.Value) ... }]
    in [WalkPath], where [k] is the key computed for the call. *)
Definition visit (k : go string) (value : option T) (s : St) : St * go (option Err) :=
  match value with
  | None => (s, Return None)
  | Some v =>
      match k with
      | Panic => (s, Panic)
      | Return k => let '(s, err) := walker k v s in (s, Return err)
      end
  end.

(** The loop of [WalkPath], entered with [trie] the node reached so
    far, the segment [part] and the next index [i]. *)
Fixpoint WalkPath_loop (trie : PathTrie T) (key part : string) (i : Z) (s : St)
    : St * go (option Err) :=
  let below := WalkPath_loop <$> Children trie in
  match Children trie !! part with
  | None => (s, Return None)
  | Some child =>
      match
        visit (if decide (i = -1)%Z then Return key else slice_to key i) (Value child) s
      with
      | (s, Return None) =>
          if decide (i = -1)%Z then (s, Return None)
          else
            let '(part', i') := segmenter key i in
            match below !! part with
            | Some walk_child => walk_child key part' i' s
            | None => (s, Return None)
            end
      | r => r
      end
  end.

Definition WalkPath (trie : PathTrie T) (key : string) (s : St) : St * go (option Err) :=
  match visit (Return "") (Value trie) s with
  | (s, Return None) =>
      let '(part, i) := segmenter key 0%Z in WalkPath_loop trie key part i s
  | r => r
  end.
End Walks.

(** *** Merge *)

(** [Merge] writes to [trie.Children] while it ranges over it. Go then
    yields, for a key, the entry stored under it when the key is
    reached, and may or may not yield the entries added on the way.
    The entries added are children of a node already merged: all hold a
    value and are merged themselves, so a round on one of them changes
    nothing. The loop is thus a fold over the keys the map had at the
    start, where a round on a key whose entry an earlier round has
    overwritten does nothing. The state of the loop is the map
    [trie.Children] and the set of keys written by the splices so far.
    (That the children of a merged node hold a value, and that [Merge]
    leaves such nodes as they are, is proved below: [Merge_settles],
    [Merge_settled].) *)

(** [for cPart, cChild := range child.Children { trie.Children[part+cPart] = cChild }] *)
Definition splice (part : string) (grandchildren : gmap string (PathTrie T))
    (st : gmap string (PathTrie T) * gset string) : gmap string (PathTrie T) * gset string :=
  range grandchildren
    (λ cPart cChild '(children, written),
       (<[part +:+ cPart := cChild]> children, {[part +:+ cPart]} ∪ written))
    st.

(** One round of the loop of [Merge], on the key [part] whose entry
    [child] has been merged by [child.Merge()]. *)
Definition Merge_round (part : string) (child : PathTrie T)
    (st : gmap string (PathTrie T) * gset string) : gmap string (PathTrie T) * gset string :=
  if decide (part ∈ st.2) then st
  else
    match Value child with
    | Some _ => (<[part := child]> st.1, st.2)
    | None =>
        let '(children, written) := splice part (Children child) st in
        (delete part children, written)
    end.

Fixpoint Merge (trie : PathTrie T) : PathTrie T :=
  let merged := Merge <$> Children trie in
  Node (Value trie) (range merged Merge_round (Children trie, ∅)).1.

(** *** RecursiveDirectChildren *)

Fixpoint RecursiveDirectChildren (trie : PathTrie T) : gmap string (PathTrie T) :=
  let below := RecursiveDirectChildren <$> Children trie in
  range (Children trie)
    (λ part child children,
       match Value child with
       | Some _ => <[part := child]> children
       | None =>
           match below !! part with
           | Some nearest =>
               range nearest (λ cPart cChild children, <[part +:+ cPart := cChild]> children)
                 children
           | None => children
           end
       end)
    ∅.

(** *** Delete *)

(** A node with neither a value nor children. *)
Definition prunable (node : PathTrie T) : bool :=
  bool_decide (Value node = None ∧ dom (Children node) = ∅).

(** Modelled from the spec: [Delete] is declared by the interface
    [Trier], and [PathTrie] has no such method in the file that defines
    it. The specification: walk to the terminal node for the key; if it
    does not exist, return false (no-op); if it exists, clear its
    value; if, after clearing, the node has no children, remove it from
    its parent's children mapping, and prune every ancestor that is now
    empty and valueless, the root excepted; return true iff a value was
    actually removed. [None] says the terminal node does not exist. *)
Fixpoint Delete_loop (node : PathTrie T) (key part : string) (i : Z)
    : option (bool * PathTrie T) :=
  let below := Delete_loop <$> Children node in
  if decide (part = "") then
    Some (bool_decide (is_Some (Value node)), Node None (Children node))
  else
    match below !! part with
    | None => None
    | Some delete_child =>
        let '(part', i') := segmenter key i in
        '(removed, child) ← delete_child key part' i';
        Some (removed,
              Node (Value node)
                (if prunable child then delete part (Children node)
                 else <[part := child]> (Children node)))
    end.

Definition Delete (trie : PathTrie T) (key : string) : bool * PathTrie T :=
  let '(part, i) := segmenter key 0%Z in
  default (false, trie) (Delete_loop trie key part i).
End Model.


(** ** Notions the properties are stated with *)

Section Notions.
Context {T : Type}.
Variable segmenter : StringSegmenter.
Variable range_keys : gset string → list string.

(** The number of nodes of a trie: the measure of the induction on
    tries. *)
Fixpoint size (trie : PathTrie T) : nat :=
  S (map_fold (λ _ child n, size child + n) 0 (Children trie)).

(** The entries one [range] loop over [m] visits, in its order. *)
Definition range_entries {A : Type} (m : gmap string A) : list (string * A) :=
  omap (λ k, (k,.) <$> m !! k) (range_keys (dom m)).

(** The node a sequence of segments leads to from [trie]. *)
Fixpoint node_at (trie : PathTrie T) (path : list string) : option (PathTrie T) :=
  match path with
  | [] => Some trie
  | part :: path => Children trie !! part ≫= λ child, node_at child path
  end.

(** The value held by the node a sequence of segments leads to. *)
Definition value_at (trie : PathTrie T) (path : list string) : option T :=
  node_at trie path ≫= Value.

(** The concatenation of a sequence of segments. *)
Definition join (path : list string) : string := foldr String.append "" path.

(** The segments of [key] from the segment [part] on, each with the
    next index the segmenter returned with it, as the loops of [Get]
    and [Put] enumerate them: up to the first empty segment. [None]
    when that takes more than [fuel] segments. *)
Fixpoint segments_from (fuel : nat) (key part : string) (i : Z) : option (list (string * Z)) :=
  if decide (part = "") then Some []
  else
    match fuel with
    | O => None
    | S fuel =>
        let '(part', i') := segmenter key i in
        ((part, i) ::.) <$> segments_from fuel key part' i'
    end.

Definition segments (fuel : nat) (key : string) : option (list (string * Z)) :=
  let '(part, i) := segmenter key 0%Z in segments_from fuel key part i.

(** The terminal node for [key]: the node the loop of [Get] ends at,
    [None] when a child is missing on the way. *)
Fixpoint terminal_from (node : PathTrie T) (key part : string) (i : Z) : option (PathTrie T) :=
  let below := terminal_from <$> Children node in
  if decide (part = "") then Some node
  else
    match below !! part with
    | None => None
    | Some terminal_child =>
        let '(part', i') := segmenter key i in terminal_child key part' i'
    end.

Definition terminal (trie : PathTrie T) (key : string) : option (PathTrie T) :=
  let '(part, i) := segmenter key 0%Z in terminal_from trie key part i.

(** The value stored at [key], if any. *)
Definition stored_at (trie : PathTrie T) (key : string) : option T :=
  terminal trie key ≫= Value.

(** *** Walks *)

(** A walker that never fails and records the calls made to it. *)
Definition recorder : WalkFunc T (list (string * T)) Empty_set :=
  λ k v calls, (calls ++ [(k, v)], None).

(** The calls [Walk] makes to a walker that never fails. *)
Definition Walk_visits (trie : PathTrie T) : list (string * T) :=
  (Walk range_keys recorder trie []).1.

(** The calls [WalkPath] makes to a walker that never fails, and
    whether it ends with a panic. *)
Definition WalkPath_visits (trie : PathTrie T) (key : string) : list (string * T) :=
  (WalkPath segmenter recorder trie key []).1.

Definition WalkPath_panics (trie : PathTrie T) (key : string) : bool :=
  match (WalkPath segmenter recorder trie key []).2 with
  | Panic => true
  | Return _ => false
  end.

(** Calling a walker on a sequence of visits, in order, up to and
    including the first call that returns an error: the state after
    the last call made, and that error ([None] when no call failed). *)
Fixpoint run {St Err : Type} (walker : WalkFunc T St Err) (visits : list (string * T))
    (s : St) : St * option Err :=
  match visits with
  | [] => (s, None)
  | (k, v) :: visits =>
      match walker k v s with
      | (s, Some err) => (s, Some err)
      | (s, None) => run walker visits s
      end
  end.

(** How [WalkPath] ends after the calls [run] made: with the error of
    the last call, if it returned one; otherwise with nil, or with the
    panic of a slice out of range when [panics]. *)
Definition ended {St Err : Type} (panics : bool) (r : St * option Err) : St * go (option Err) :=
  match r with
  | (s, Some err) => (s, Return (Some err))
  | (s, None) => (s, if panics then Panic else Return None)
  end.

(** The value-holding nodes of a trie, each by the sequence of
    segments that leads to it from the root, with its value. *)
Fixpoint holders (trie : PathTrie T) : list (list string * T) :=
  let below := holders <$> Children trie in
  match Value trie with Some v => [([], v)] | None => [] end ++
  range range_keys below
    (λ part held_by_child acc, acc ++ (prod_map (cons part) id <$> held_by_child)) [].

(** The key [walk] passes for the node at [path] below the node it was
    called on with [key]. *)
Definition walk_key (key : string) (pv : list string * T) : string * T :=
  (key +:+ join pv.1, pv.2).

(** The entries [RecursiveDirectChildren] writes during the round of
    its loop on the child [pc.2] under the segment [pc.1], and the
    entries it writes in all, in the order it writes them. *)
Definition branch_entries (pc : string * PathTrie T) : list (string * PathTrie T) :=
  match Value pc.2 with
  | Some _ => [pc]
  | None =>
      prod_map (String.append pc.1) id
        <$> range_entries (RecursiveDirectChildren range_keys pc.2)
  end.

Definition written_entries (trie : PathTrie T) : list (string * PathTrie T) :=
  range_entries (Children trie) ≫= branch_entries.

(** The visits of the chain from [node] along the segments [segs] of
    [key]: each value-holding node on it, keyed by the prefix of [key]
    consumed so far, the node of the last segment by the whole key;
    the chain ends where a child is missing. *)
Fixpoint chain_visits (node : PathTrie T) (key : string) (segs : list (string * Z))
    : list (string * T) :=
  match segs with
  | [] => []
  | (part, i) :: segs =>
      match Children node !! part with
      | None => []
      | Some child =>
          match Value child with
          | Some v =>
              [(if decide (segs = []) then key else String.substring 0 (Z.to_nat i) key, v)]
          | None => []
          end ++ chain_visits child key segs
      end
  end.

(** The visits of the chain from the root: the root first, keyed by
    the empty string. *)
Definition path_visits (trie : PathTrie T) (key : string) (segs : list (string * Z))
    : list (string * T) :=
  match Value trie with Some v => [("", v)] | None => [] end ++ chain_visits trie key segs.

(** The contract of the next index: [-1] with the last segment, an
    index into the key with every other one. *)
Fixpoint well_marked (key : string) (segs : list (string * Z)) : Prop :=
  match segs with
  | [] => True
  | (_, i) :: segs =>
      (if decide (segs = []) then i = (-1)%Z else (0 ≤ i ≤ len key)%Z)
      ∧ well_marked key segs
  end.

(** *** Shapes of tries *)

(** The nodes of a trie, each by the sequence of segments that leads to
    it from the root. *)
Fixpoint nodes (trie : PathTrie T) : list (list string * PathTrie T) :=
  let below := nodes <$> Children trie in
  ([], trie) ::
  range range_keys below
    (λ part nodes_of_child acc, acc ++ (prod_map (cons part) id <$> nodes_of_child)) [].

(** The keys of all the children mappings of a trie. *)
Definition all_keys (trie : PathTrie T) : list string :=
  nodes trie ≫= λ pn, range_keys (dom (Children pn.2)).

(** [node] is the nearest value-holding descendant of [trie] along
    [path]: it holds a value, and no node strictly between does. *)
Fixpoint nearest (trie : PathTrie T) (path : list string) (node : PathTrie T) : Prop :=
  match path with
  | [] => False
  | part :: path =>
      ∃ child, Children trie !! part = Some child ∧
        match Value child with
        | Some _ => path = [] ∧ node = child
        | None => nearest child path node
        end
  end.

(** Distinct nearest value-holding descendants have distinct
    concatenated keys. *)
Definition distinct_keys (trie : PathTrie T) : Prop :=
  ∀ path1 node1 path2 node2,
    nearest trie path1 node1 → nearest trie path2 node2 →
    join path1 = join path2 → path1 = path2.

(** [path] leads from [trie] to a node holding [v], through nodes that
    all hold a value. *)
Fixpoint valued_path (trie : PathTrie T) (path : list string) (v : T) : Prop :=
  match path with
  | [] => Value trie = Some v
  | part :: path =>
      ∃ child, Children trie !! part = Some child ∧ is_Some (Value child) ∧
        valued_path child path v
  end.

(** A family of segments none of which is two segments of the family
    followed by anything: no concatenation of two or more of them is
    one of them. *)
Definition indivisible (P : string → Prop) : Prop :=
  ∀ a b rest, P a → P b → ¬ P (a +:+ b +:+ rest).

(** Strings that start with one, respectively two, segments of [P]. *)
Definition led_by (P : string → Prop) (k : string) : Prop :=
  ∃ a rest, P a ∧ k = a +:+ rest.

Definition led_by_two (P : string → Prop) (k : string) : Prop :=
  ∃ a b rest, P a ∧ P b ∧ k = a +:+ b +:+ rest.

(** Every value-holding node is the terminal node of the key that
    [Walk] rebuilds for it: the segments of the concatenation of its
    path are its path. So it is after [Put]s alone, under a segmenter
    whose segments concatenate to the key. *)
Definition canonical (trie : PathTrie T) : Prop :=
  ∀ path v, value_at trie path = Some v →
    ∃ fuel segs, segments fuel (join path) = Some segs ∧ segs.*1 = path.

(** Every node below the root holds a value. *)
Definition settled (trie : PathTrie T) : Prop :=
  ∀ path node, path ≠ [] → node_at trie path = Some node → is_Some (Value node).

(** Every key of every children mapping of the trie satisfies [P]. *)
Definition keys_in (P : string → Prop) (trie : PathTrie T) : Prop :=
  ∀ path node part, node_at trie path = Some node → is_Some (Children node !! part) → P part.

(** The pruning invariant: no node below the root is without value and
    without children. *)
Definition pruned (trie : PathTrie T) : Prop :=
  ∀ path node, path ≠ [] → node_at trie path = Some node → prunable node = false.
End Notions.

End Trie.

(** ** Sample tries of numbers, for the default segmenter *)

(** One admissible order of [range]: the order of [elements]. *)
Definition in_order : gset string → list string := elements.

(** A leaf holding [v]. *)
Definition leaf (v : nat) : PathTrie nat := Node (Some v) ∅.

(** The trie of the specification's example: [Put("/a/b", 1)],
    [Put("/a/c", 2)], [Put("/a", 3)]. *)
Definition abc : PathTrie nat :=
  Node None {[ "/a" := Node (Some 3) {[ "/b" := leaf 1; "/c" := leaf 2 ]} ]}.

(** A trie with values at ["/a"] and ["/a/b/c"], none at ["/a/b"]. *)
Definition chain : PathTrie nat :=
  Node None {[ "/a" := Node (Some 3) {[ "/b" := Node None {[ "/c" := leaf 1 ]} ]} ]}.

(** The node at ["/a"] of a trie with values only at ["/a/b/c"] and
    ["/a/x"]. *)
Definition fork : PathTrie nat :=
  Node None {[ "/b" := Node None {[ "/c" := leaf 1 ]}; "/x" := leaf 2 ]}.

(** The trie after [Put("/a/b", 1)], and after [Merge()] then. *)
Definition deep : PathTrie nat :=
  Node None {[ "/a" := Node None {[ "/b" := leaf 1 ]} ]}.

Definition deep_merged : PathTrie nat := Node None {[ "/a/b" := leaf 1 ]}.

(** The trie after [Put("/a/b", 1)], [Merge()], [Put("/a/b", 5)]. *)
Definition collided : PathTrie nat :=
  Node None {[ "/a/b" := leaf 1; "/a" := Node None {[ "/b" := leaf 5 ]} ]}.

(** Whether a string has a slash in it. *)
Fixpoint has_slash (s : string) : bool :=
  match s with
  | "" => false
  | String c s => if Ascii.eqb c "/"%char then true else has_slash s
  end.

(** The segments the default segmenter cuts from a key that starts with
    a slash: a slash, then no further slash. *)
Definition slash_segment (s : string) : Prop :=
  match s with
  | "" => False
  | String c s => c = "/"%char ∧ has_slash s = false
  end.

(** A trie with a branch that holds values all along, and a branch that
    [Merge] collapses. *)
Definition mixed : PathTrie nat :=
  Node None
    {[ "/a" := Node (Some 3) {[ "/b" := leaf 1 ]};
       "/x" := Node None {[ "/y" := leaf 2 ]} ]}.

(** A walker that records the keys it is called with, and fails on the
    value [2]. *)
Definition stop_at_two : WalkFunc nat (list string) string :=
  λ k v keys, (keys ++ [k], if decide (v = 2) then Some "two" else None).

(** ** Strings *)

Lemma append_cons (x : Ascii.ascii) (a b : string) : String x a +:+ b = String x (a +:+ b).
Proof. reflexivity. Qed.

Lemma append_assoc (a b c : string) : (a +:+ b) +:+ c = a +:+ (b +:+ c).
Proof. induction a as [|x a IH]; [done|]. by rewrite !append_cons, IH. Qed.

Lemma append_empty_r (a : string) : a +:+ "" = a.
Proof. induction a as [|x a IH]; [done|]. by rewrite append_cons, IH. Qed.

(** ** Properties *)

Section Properties.
Context {T : Type} (zero : T).
Variable segmenter : StringSegmenter.
Variable range_keys : gset string → list string.
(** A [range] loop visits every key of its map, once. *)
Hypothesis range_keys_perm : ∀ X, range_keys X ≡ₚ elements X.

Import Trie.
(** The methods and notions, at the segmenter and the order of the
    section. *)
Local Abbreviation Get := (Trie.Get zero segmenter).
Local Abbreviation Get_loop := (Trie.Get_loop zero segmenter).
Local Abbreviation Put := (Trie.Put segmenter).
Local Abbreviation Put_loop := (Trie.Put_loop segmenter).
Local Abbreviation range := (Trie.range range_keys).
Local Abbreviation range_entries := (Trie.range_entries range_keys).
Local Abbreviation segments := (Trie.segments segmenter).
Local Abbreviation segments_from := (Trie.segments_from segmenter).
Local Abbreviation terminal := (Trie.terminal segmenter).
Local Abbreviation terminal_from := (Trie.terminal_from segmenter).
Local Abbreviation stored_at := (Trie.stored_at segmenter).
Local Abbreviation canonical := (Trie.canonical segmenter).
Local Abbreviation walk := (Trie.walk range_keys).
Local Abbreviation Walk := (Trie.Walk range_keys).
Local Abbreviation Walk_visits := (Trie.Walk_visits range_keys).
Local Abbreviation WalkPath := (Trie.WalkPath segmenter).
Local Abbreviation WalkPath_loop := (Trie.WalkPath_loop segmenter).
Local Abbreviation WalkPath_visits := (Trie.WalkPath_visits segmenter).
Local Abbreviation WalkPath_panics := (Trie.WalkPath_panics segmenter).
Local Abbreviation holders := (Trie.holders range_keys).
Local Abbreviation nodes := (Trie.nodes range_keys).
Local Abbreviation all_keys := (Trie.all_keys range_keys).
Local Abbreviation Merge := (Trie.Merge range_keys).
Local Abbreviation RecursiveDirectChildren := (Trie.RecursiveDirectChildren range_keys).
Local Abbreviation splice := (Trie.splice range_keys).
Local Abbreviation Merge_round := (Trie.Merge_round range_keys).
Local Abbreviation Delete := (Trie.Delete segmenter).
Local Abbreviation Delete_loop := (Trie.Delete_loop segmenter).
Local Abbreviation branch_entries := (Trie.branch_entries range_keys).
Local Abbreviation written_entries := (Trie.written_entries range_keys).

(** *** Induction on tries *)

Lemma size_child (trie child : PathTrie T) part :
  Children trie !! part = Some child → size child < size trie.
Proof.
  intros Hc. destruct trie as [v ch]; simpl in *.
  rewrite (map_fold_delete_L _ _ part child ch); [lia| |done].
  intros; lia.
Qed.

Lemma PathTrie_children_ind (P : PathTrie T → Prop) :
  (∀ trie, (∀ part child, Children trie !! part = Some child → P child) → P trie) →
  ∀ trie, P trie.
Proof.
  intros step trie. remember (size trie) as n eqn:Hn.
  revert trie Hn. induction (lt_wf n) as [n _ IH]. intros trie ->.
  apply step. intros part child Hc. eapply IH; [|done]. by eapply size_child.
Qed.

(** *** Range loops as folds over the entries visited *)

Lemma range_fold {A B} (m : gmap string A) (body : string → A → B → B) b :
  range m body b = foldl (λ b ka, body ka.1 ka.2 b) b (range_entries m).
Proof.
  unfold Trie.range, Trie.range_entries. generalize (range_keys (dom m)) as l.
  intros l; revert b; induction l as [|k l IH]; intros b; simpl; [done|].
  destruct (m !! k); simpl; auto.
Qed.

Lemma range_entries_fmap {A B} (f : A → B) (m : gmap string A) :
  range_entries (f <$> m) = prod_map id f <$> range_entries m.
Proof.
  unfold Trie.range_entries. rewrite dom_fmap_L.
  induction (range_keys (dom m)) as [|k l IH]; simpl; [done|].
  rewrite lookup_fmap. destruct (m !! k); simpl; [f_equal|]; exact IH.
Qed.

Lemma elem_of_range_entries {A} (m : gmap string A) k a :
  (k, a) ∈ range_entries m ↔ m !! k = Some a.
Proof.
  unfold Trie.range_entries. rewrite list_elem_of_omap. split.
  - intros (k' & _ & Hk). destruct (m !! k') eqn:E; simpl in Hk; congruence.
  - intros Hk. exists k. rewrite Hk. split; [|done].
    rewrite range_keys_perm, elem_of_elements, elem_of_dom. eauto.
Qed.

Lemma range_entries_keys {A} (m : gmap string A) :
  (range_entries m).*1 = range_keys (dom m).
Proof.
  unfold Trie.range_entries.
  assert (Forall (λ k, is_Some (m !! k)) (range_keys (dom m))) as Hall.
  { apply Forall_forall. intros k. rewrite range_keys_perm, elem_of_elements.
    apply elem_of_dom. }
  induction Hall as [|k l [a Hk] _ IH]; simpl; [done|].
  rewrite Hk. simpl. f_equal. exact IH.
Qed.

Lemma NoDup_range_entries {A} (m : gmap string A) : NoDup (range_entries m).*1.
Proof. rewrite range_entries_keys, range_keys_perm. apply NoDup_elements. Qed.

(** *** One round of each loop *)

Lemma Get_loop_unfold node key part i :
  Get_loop node key part i =
    if decide (part = "") then
      match Value node with Some v => Return v | None => Panic end
    else
      match Children node !! part with
      | None => Return zero
      | Some child => Get_loop child key (segmenter key i).1 (segmenter key i).2
      end.
Proof.
  destruct node as [v ch]; simpl. rewrite lookup_fmap.
  destruct (ch !! part); simpl; [|done]. by destruct (segmenter key i).
Qed.

Lemma terminal_from_unfold (node : PathTrie T) key part i :
  terminal_from node key part i =
    if decide (part = "") then Some node
    else
      child ← Children node !! part;
      terminal_from child key (segmenter key i).1 (segmenter key i).2.
Proof.
  destruct node as [v ch]; simpl. rewrite lookup_fmap.
  destruct (ch !! part); simpl; [|done]. by destruct (segmenter key i).
Qed.

Lemma Put_loop_unfold fuel (node : PathTrie T) key part i value :
  Put_loop fuel node key part i value =
    if decide (part = "") then Some (Node (Some value) (Children node))
    else
      match fuel with
      | O => None
      | S fuel =>
          child' ← Put_loop fuel (default newPathTrie (Children node !! part)) key
                     (segmenter key i).1 (segmenter key i).2 value;
          Some (Node (Value node) (<[part := child']> (Children node)))
      end.
Proof. destruct fuel; simpl; [done|]. by destruct (segmenter key i). Qed.

Lemma segments_from_unfold fuel key part i :
  segments_from fuel key part i =
    if decide (part = "") then Some []
    else
      match fuel with
      | O => None
      | S fuel =>
          ((part, i) ::.) <$> segments_from fuel key (segmenter key i).1 (segmenter key i).2
      end.
Proof. destruct fuel; simpl; [done|]. by destruct (segmenter key i). Qed.

(** *** Get reads the terminal node *)

Lemma Get_loop_terminal node key part i :
  Get_loop node key part i =
    match terminal_from node key part i with
    | None => Return zero
    | Some node => match Value node with Some v => Return v | None => Panic end
    end.
Proof.
  revert part i. induction node as [node IH] using PathTrie_children_ind. intros part i.
  rewrite Get_loop_unfold, terminal_from_unfold. case_decide; [done|].
  destruct (Children node !! part) as [child|] eqn:Hc; simpl; [|done]. by eapply IH.
Qed.

Lemma Get_terminal trie key :
  Get trie key =
    match terminal trie key with
    | None => Return zero
    | Some node => match Value node with Some v => Return v | None => Panic end
    end.
Proof.
  unfold Trie.Get, Trie.terminal. destruct (segmenter key 0%Z) as [part i].
  apply Get_loop_terminal.
Qed.

(** The terminal node is the node the segments of the key lead to. *)
Lemma terminal_from_node_at fuel (node : PathTrie T) key part i segs :
  segments_from fuel key part i = Some segs →
  terminal_from node key part i = node_at node segs.*1.
Proof.
  revert node part i segs. induction fuel as [|fuel IH]; intros node part i segs;
    rewrite segments_from_unfold, terminal_from_unfold; case_decide; try done.
  - by intros [= <-].
  - by intros [= <-].
  - destruct (segments_from fuel _ _ _) as [segs'|] eqn:Hs; [|done].
    intros [= <-]; simpl. destruct (Children node !! part) as [child|]; simpl; [|done].
    by eapply IH.
Qed.

Lemma terminal_node_at fuel (trie : PathTrie T) key segs :
  segments fuel key = Some segs → terminal trie key = node_at trie segs.*1.
Proof.
  unfold Trie.segments, Trie.terminal. destruct (segmenter key 0%Z) as [part i].
  apply terminal_from_node_at.
Qed.

(** *** Put, then Get *)

Lemma Put_loop_terminal fuel (node : PathTrie T) key part i value :
  is_Some (segments_from fuel key part i) →
  ∃ node' end_node,
    Put_loop fuel node key part i value = Some node' ∧
    terminal_from node' key part i = Some end_node ∧
    Value end_node = Some value.
Proof.
  revert node part i. induction fuel as [|fuel IH]; intros node part i;
    rewrite segments_from_unfold, Put_loop_unfold; case_decide as Hpart.
  - intros _. eexists _, _. split; [done|].
    rewrite terminal_from_unfold, decide_True by done. done.
  - by intros [? [=]].
  - intros _. eexists _, _. split; [done|].
    rewrite terminal_from_unfold, decide_True by done. done.
  - intros Hs. apply fmap_is_Some in Hs.
    destruct (IH (default newPathTrie (Children node !! part)) _ _ Hs)
      as (child' & end_node & -> & Hend & Hv).
    eexists _, end_node. split; [done|].
    rewrite terminal_from_unfold, decide_False by done.
    simpl. rewrite lookup_insert_eq. simpl. done.
Qed.

(** [Put] returns once the segments of the key have ended, and has then
    stored the value at the key. *)
Lemma Put_stores fuel (trie : PathTrie T) key value :
  is_Some (segments fuel key) →
  ∃ trie', Put fuel trie key value = Some trie' ∧ stored_at trie' key = Some value.
Proof.
  unfold Trie.segments, Trie.Put, Trie.stored_at, Trie.terminal.
  destruct (segmenter key 0%Z) as [part i]. intros Hs.
  destruct (Put_loop_terminal fuel trie key part i value Hs)
    as (trie' & end_node & HP & Hend & Hv).
  exists trie'. split; [done|]. by rewrite Hend.
Qed.

Lemma Get_stored trie key v :
  stored_at trie key = Some v → Get trie key = Return v.
Proof.
  unfold Trie.stored_at. rewrite Get_terminal.
  destruct (terminal trie key) as [node|]; [|done]. simpl. by intros ->.
Qed.

(** C1. For every trie, key and value: once the segmentation of the key
    ends (within [fuel] segments), [Put(key, value)] returns, and
    [Get(key)] on the trie it leaves returns [value]. *)
Theorem Put_then_Get fuel (trie : PathTrie T) key value :
  is_Some (segments fuel key) →
  ∃ trie', Put fuel trie key value = Some trie' ∧ Get trie' key = Return value.
Proof.
  intros Hs. destruct (Put_stores fuel trie key value Hs) as (trie' & HPut & Hstored).
  exists trie'. split; [done|]. by apply Get_stored.
Qed.

(** *** Walk *)

Lemma run_app {St Err} (walker : WalkFunc T St Err) visits1 visits2 s :
  run walker (visits1 ++ visits2) s =
    match run walker visits1 s with
    | (s, Some err) => (s, Some err)
    | (s, None) => run walker visits2 s
    end.
Proof.
  revert s. induction visits1 as [|[k v] visits1 IH]; intros s; simpl; [done|].
  destruct (walker k v s) as [s' [err|]]; [done|]. apply IH.
Qed.

(** What [run] returns: the error of the call it stopped at, after
    calls that all returned nil; or nil after calls that all did. *)
Lemma run_stopped {St Err} (walker : WalkFunc T St Err) visits s s' err :
  run walker visits s = (s', Some err) →
  ∃ before k v after s1,
    visits = before ++ (k, v) :: after
    ∧ run walker before s = (s1, None)
    ∧ walker k v s1 = (s', Some err).
Proof.
  revert s. induction visits as [|[k v] visits IH]; intros s; simpl; [done|].
  destruct (walker k v s) as [s1 [err1|]] eqn:Hw.
  - intros [= <- <-]. by exists [], k, v, visits, s.
  - intros (before & k' & v' & after & s2 & -> & Hrun & Hw')%IH.
    exists ((k, v) :: before), k', v', after, s2. simpl. by rewrite Hw.
Qed.

Lemma run_completed {St Err} (walker : WalkFunc T St Err) visits s s' :
  run walker visits s = (s', None) →
  ∀ before k v after,
    visits = before ++ (k, v) :: after →
    ∃ s1 s2, run walker before s = (s1, None) ∧ walker k v s1 = (s2, None).
Proof.
  revert s. induction visits as [|[k v] visits IH]; intros s; simpl.
  - intros _ [|??] ????; done.
  - destruct (walker k v s) as [s1 [err1|]] eqn:Hw; [done|]. intros Hrun.
    intros [|[k0 v0] before] k' v' after; simpl.
    + intros [= <- <- <-]. eauto.
    + intros [= <- <- ->]. rewrite Hw. by eapply IH.
Qed.

Lemma run_recorder (visits calls : list (string * T)) :
  run recorder visits calls = (calls ++ visits, None).
Proof.
  revert calls. induction visits as [|[k v] visits IH]; intros calls; simpl.
  - by rewrite app_nil_r.
  - rewrite IH. by rewrite <- app_assoc.
Qed.

Lemma walk_unfold {St Err} (walker : WalkFunc T St Err) trie key s :
  walk walker trie key s =
    match
      match Value trie with
      | Some v => walker key v s
      | None => (s, None)
      end
    with
    | (s, Some err) => (s, Some err)
    | (s, None) =>
        foldl (λ r pc,
                 match r with
                 | (s, Some err) => (s, Some err)
                 | (s, None) => walk walker pc.2 (key +:+ pc.1) s
                 end)
              (s, None) (range_entries (Children trie))
    end.
Proof.
  destruct trie as [v ch]; simpl.
  destruct (match v with Some v0 => walker key v0 s | None => (s, None) end) as [s' [err|]];
    [done|].
  rewrite range_fold, range_entries_fmap, foldl_fmap. done.
Qed.

Lemma foldl_app_bind {A B} (f : A → list B) (l : list A) (acc : list B) :
  foldl (λ acc x, acc ++ f x) acc l = acc ++ (l ≫= f).
Proof.
  revert acc. induction l as [|x l IH]; intros acc; simpl.
  - by rewrite app_nil_r.
  - rewrite IH. by rewrite <- app_assoc.
Qed.

Lemma holders_unfold (trie : PathTrie T) :
  holders trie =
    match Value trie with Some v => [([], v)] | None => [] end ++
    (range_entries (Children trie) ≫= λ pc, prod_map (cons pc.1) id <$> holders pc.2).
Proof.
  destruct trie as [v ch]; simpl. f_equal.
  rewrite range_fold, range_entries_fmap, foldl_fmap.
  exact (foldl_app_bind (λ pc, prod_map (cons pc.1) id <$> holders pc.2) _ []).
Qed.

(** [walk] calls the walker on the value-holding nodes, in the order of
    [holders], up to the first error. *)
Lemma walk_run {St Err} (walker : WalkFunc T St Err) trie key s :
  walk walker trie key s = run walker (walk_key key <$> holders trie) s.
Proof.
  revert key s. induction trie as [trie IH] using PathTrie_children_ind. intros key s.
  rewrite walk_unfold, holders_unfold, fmap_app, run_app.
  assert (run walker
            (walk_key key <$> match Value trie with Some v => [([], v)] | None => [] end) s
          = match Value trie with Some v => walker key v s | None => (s, None) end) as ->.
  { destruct (Value trie) as [v|]; simpl; [|done].
    unfold walk_key; simpl. rewrite append_empty_r.
    by destruct (walker key v s) as [? [?|]]. }
  destruct (match Value trie with Some v => walker key v s | None => (s, None) end)
    as [s1 [err|]]; [done|].
  assert (∀ part child, (part, child) ∈ range_entries (Children trie) →
            Children trie !! part = Some child) as Hin
    by (intros ??; apply elem_of_range_entries).
  set (step := λ (r : St * option Err) (pc : string * PathTrie T),
                 match r with
                 | (s, Some err) => (s, Some err)
                 | (s, None) => walk walker pc.2 (key +:+ pc.1) s
                 end).
  set (below := λ pc : string * PathTrie T, prod_map (cons pc.1) id <$> holders pc.2).
  enough (∀ acc,
            foldl step (run walker (walk_key key <$> acc) s1) (range_entries (Children trie))
            = run walker (walk_key key <$> (acc ++ (range_entries (Children trie) ≫= below))) s1)
    as Hfold by exact (Hfold []).
  induction (range_entries (Children trie)) as [|[part child] l IHl]; intros acc; simpl.
  { by rewrite app_nil_r. }
  rewrite app_assoc, <- IHl by (intros ???; apply Hin; by right). f_equal.
  rewrite fmap_app, run_app. unfold step at 1; simpl.
  destruct (run walker (walk_key key <$> acc) s1) as [s2 [err|]]; [done|].
  rewrite (IH part child) by (apply Hin; by left). f_equal.
  unfold below; simpl. rewrite <- list_fmap_compose. apply list_fmap_ext.
  intros _ [path v] _. unfold walk_key; simpl. by rewrite append_assoc.
Qed.

Lemma Walk_visits_holders (trie : PathTrie T) :
  Walk_visits trie = (λ pv, (join pv.1, pv.2)) <$> holders trie.
Proof.
  unfold Trie.Walk_visits, Trie.Walk. rewrite walk_run, run_recorder. done.
Qed.

Lemma elem_of_holders (trie : PathTrie T) path v :
  (path, v) ∈ holders trie ↔ value_at trie path = Some v.
Proof.
  revert path. induction trie as [trie IH] using PathTrie_children_ind. intros path.
  rewrite holders_unfold, elem_of_app, list_elem_of_bind. unfold value_at. split.
  - intros [Hown|([part child] & Hin & Hpc)].
    + destruct (Value trie) as [v'|] eqn:Hv; [|by apply elem_of_nil in Hown].
      apply list_elem_of_singleton in Hown as [= -> ->]. done.
    + apply elem_of_range_entries in Hpc. apply list_elem_of_fmap in Hin as ([p v'] & [= -> ->] & Hin).
      simpl in *. rewrite Hpc; simpl. by apply (IH part child Hpc).
  - destruct path as [|part path]; simpl.
    + intros ->. left. by left.
    + destruct (Children trie !! part) as [child|] eqn:Hpc; simpl; [|done]. intros Hv.
      right. exists (part, child). split; [|by apply elem_of_range_entries].
      apply list_elem_of_fmap. exists (path, v). split; [done|]. by apply (IH part child Hpc).
Qed.

Lemma fmap_list_bind {A B C} (f : B → C) (g : A → list B) (l : list A) :
  f <$> (l ≫= g) = l ≫= λ x, f <$> g x.
Proof.
  induction l as [|x l IH]; [done|]. by rewrite !bind_cons, fmap_app, IH.
Qed.


(** A key whose segments concatenate back to it is the key [Walk]
    rebuilds for its terminal node. *)
Lemma stored_at_value_at fuel (trie : PathTrie T) key segs :
  segments fuel key = Some segs → stored_at trie key = value_at trie segs.*1.
Proof.
  intros Hs. unfold Trie.stored_at, value_at. by rewrite (terminal_node_at fuel _ _ segs).
Qed.

(** The segments of a key do not depend on the fuel that suffices. *)
Lemma segments_from_agree fuel1 fuel2 key part i segs1 segs2 :
  segments_from fuel1 key part i = Some segs1 →
  segments_from fuel2 key part i = Some segs2 →
  segs1 = segs2.
Proof.
  revert fuel2 part i segs1 segs2. induction fuel1 as [|fuel1 IH];
    intros fuel2 part i segs1 segs2 H1 H2;
    rewrite segments_from_unfold in H1; rewrite segments_from_unfold in H2;
    case_decide; try done; try congruence.
  destruct fuel2 as [|fuel2]; [done|].
  destruct (segments_from fuel1 key _ _) as [s1|] eqn:Hs1; [|done].
  destruct (segments_from fuel2 key _ _) as [s2|] eqn:Hs2; [|done].
  injection H1 as <-. injection H2 as <-. f_equal. by eapply IH.
Qed.

Lemma segments_agree fuel1 fuel2 key segs1 segs2 :
  segments fuel1 key = Some segs1 → segments fuel2 key = Some segs2 → segs1 = segs2.
Proof.
  unfold Trie.segments. destruct (segmenter key 0%Z) as [part i]. apply segments_from_agree.
Qed.



(** [Walk] calls the walker on its visits in order, up to the first
    error. *)
Lemma Walk_run {St Err} (walker : WalkFunc T St Err) trie s :
  Walk walker trie s = run walker (Walk_visits trie) s.
Proof.
  unfold Trie.Walk. rewrite walk_run, Walk_visits_holders. done.
Qed.

(** *** WalkPath *)

Lemma WalkPath_loop_unfold {St Err} (walker : WalkFunc T St Err) trie key part i s :
  WalkPath_loop walker trie key part i s =
    match Children trie !! part with
    | None => (s, Return None)
    | Some child =>
        match
          visit walker (if decide (i = -1)%Z then Return key else slice_to key i)
            (Value child) s
        with
        | (s, Return None) =>
            if decide (i = -1)%Z then (s, Return None)
            else WalkPath_loop walker child key (segmenter key i).1 (segmenter key i).2 s
        | r => r
        end
    end.
Proof.
  destruct trie as [v ch]; simpl. destruct (ch !! part) as [child|] eqn:Hc; [|done].
  destruct (visit _ _ _ _) as [s' [[err|]|]]; try done.
  case_decide; [done|]. rewrite lookup_fmap, Hc. simpl. by destruct (segmenter key i).
Qed.

(** Whatever the walker, the loop of [WalkPath] calls it on one and the
    same sequence of visits, up to the first error. *)
Lemma WalkPath_loop_run (node : PathTrie T) key part i :
  ∃ visits panics, ∀ St Err (walker : WalkFunc T St Err) s,
    WalkPath_loop walker node key part i s = ended panics (run walker visits s).
Proof.
  revert part i. induction node as [node IH] using PathTrie_children_ind. intros part i.
  destruct (Children node !! part) as [child|] eqn:Hc.
  2:{ exists [], false. intros. by rewrite WalkPath_loop_unfold, Hc. }
  assert (∃ visits panics, ∀ St Err (walker : WalkFunc T St Err) (s : St),
            (if decide (i = -1)%Z then (s, Return (@None Err))
             else WalkPath_loop walker child key (segmenter key i).1 (segmenter key i).2 s)
            = ended panics (run walker visits s)) as (rest & panics & Hrest).
  { case_decide.
    - exists [], false. done.
    - destruct (IH part child Hc (segmenter key i).1 (segmenter key i).2)
        as (visits & panics & Hv). by exists visits, panics. }
  destruct (Value child) as [v|] eqn:Hv.
  - destruct (if decide (i = -1)%Z then Return key else slice_to key i) as [k|] eqn:Hk.
    + exists ((k, v) :: rest), panics. intros St Err walker s.
      rewrite WalkPath_loop_unfold, Hc, Hv, Hk. simpl.
      destruct (walker k v s) as [s' [err|]]; [done|]. apply Hrest.
    + exists [], true. intros St Err walker s.
      by rewrite WalkPath_loop_unfold, Hc, Hv, Hk.
  - exists rest, panics. intros St Err walker s.
    rewrite WalkPath_loop_unfold, Hc, Hv. simpl. apply Hrest.
Qed.

Lemma WalkPath_run_some (trie : PathTrie T) key :
  ∃ visits panics, ∀ St Err (walker : WalkFunc T St Err) s,
    WalkPath walker trie key s = ended panics (run walker visits s).
Proof.
  unfold Trie.WalkPath. destruct (segmenter key 0%Z) as [part i].
  destruct (WalkPath_loop_run trie key part i) as (rest & panics & Hrest).
  destruct (Value trie) as [v|].
  - exists (("", v) :: rest), panics. intros St Err walker s. simpl.
    destruct (walker "" v s) as [s' [err|]]; [done|]. apply Hrest.
  - exists rest, panics. intros St Err walker s. simpl. apply Hrest.
Qed.

Lemma WalkPath_run {St Err} (walker : WalkFunc T St Err) trie key s :
  WalkPath walker trie key s
  = ended (WalkPath_panics trie key) (run walker (WalkPath_visits trie key) s).
Proof.
  destruct (WalkPath_run_some trie key) as (visits & panics & Hrun).
  unfold Trie.WalkPath_panics, Trie.WalkPath_visits.
  rewrite (Hrun _ _ recorder), run_recorder. simpl. rewrite Hrun. by destruct panics.
Qed.

(** C7. [Walk] and [WalkPath] call the walker on their visits in order
    up to the first call that returns an error, make no further call,
    and return that very error; when no call returns an error they
    return nil ([WalkPath]: unless a next index outside the key makes
    the slice [key[0:i]] panic). *)
Theorem walks_stop_at_first_error {St Err} (walker : WalkFunc T St Err) trie key s :
  Walk walker trie s = run walker (Walk_visits trie) s
  ∧ WalkPath walker trie key s
    = ended (WalkPath_panics trie key) (run walker (WalkPath_visits trie key) s).
Proof. split; [apply Walk_run|apply WalkPath_run]. Qed.

Lemma segments_from_nil fuel key part i :
  segments_from fuel key part i = Some [] → part = "".
Proof.
  rewrite segments_from_unfold. case_decide; [done|].
  destruct fuel; [done|]. by destruct (segments_from _ _ _ _).
Qed.

Lemma segments_from_cons fuel key part i seg segs :
  segments_from fuel key part i = Some (seg :: segs) →
  part ≠ "" ∧ seg = (part, i) ∧ ∃ fuel',
    fuel = S fuel' ∧
    segments_from fuel' key (segmenter key i).1 (segmenter key i).2 = Some segs.
Proof.
  rewrite segments_from_unfold. case_decide; [done|].
  destruct fuel as [|fuel']; [done|].
  destruct (segments_from fuel' _ _ _) as [segs'|] eqn:Hs; [|done].
  intros [= <- <-]. eauto.
Qed.

Lemma WalkPath_loop_chain {St Err} (walker : WalkFunc T St Err) fuel node key part i segs s :
  segments_from fuel key part i = Some segs → segs ≠ [] → well_marked key segs →
  WalkPath_loop walker node key part i s
  = ended false (run walker (chain_visits node key segs) s).
Proof.
  revert node part i segs s. induction fuel as [|fuel IH]; intros node part i segs s Hs Hne Hm;
    (destruct segs as [|seg rest]; [done|]);
    apply segments_from_cons in Hs as (Hpart & -> & fuel' & Hfuel & Hrest); [done|].
  injection Hfuel as <-. rewrite WalkPath_loop_unfold. simpl.
  destruct (Children node !! part) as [child|]; [|done].
  destruct Hm as [Hi Hm]. rewrite run_app.
  destruct (decide (rest = [])) as [->|Hrest_ne].
  - subst i. rewrite !decide_True by done.
    destruct (Value child) as [v|]; simpl; [|done].
    by destruct (walker key v s) as [s' [err|]].
  - assert (i ≠ -1)%Z by lia. rewrite !decide_False by done.
    unfold slice_to. rewrite decide_True by done.
    destruct (Value child) as [v|]; simpl.
    + destruct (walker _ v s) as [s' [err|]]; [done|].
      rewrite ?decide_False by done. by apply IH.
    + rewrite ?decide_False by done. by apply IH.
Qed.

(** The loop of [WalkPath] on the segments of a key, from the root. *)
Lemma WalkPath_loop_segments {St Err} (walker : WalkFunc T St Err)
    fuel (trie : PathTrie T) key part i segs s :
  segments_from fuel key part i = Some segs →
  well_marked key segs →
  (segs = [] → Children trie !! "" = None) →
  WalkPath_loop walker trie key part i s
  = ended false (run walker (chain_visits trie key segs) s).
Proof.
  intros Hs Hm Hroot. destruct (decide (segs = [])) as [->|Hne].
  - apply segments_from_nil in Hs as ->.
    rewrite WalkPath_loop_unfold, Hroot by done. done.
  - by eapply WalkPath_loop_chain.
Qed.

(** [WalkPath] is the visit of the root, then the loop. *)
Lemma WalkPath_root {St Err} (walker : WalkFunc T St Err) (trie : PathTrie T) key s visits :
  (∀ s, WalkPath_loop walker trie key (segmenter key 0%Z).1 (segmenter key 0%Z).2 s
        = ended false (run walker visits s)) →
  WalkPath walker trie key s
  = ended false
      (run walker (match Value trie with Some v => [("", v)] | None => [] end ++ visits) s).
Proof.
  unfold Trie.WalkPath. destruct (segmenter key 0%Z) as [part i]. simpl.
  intros Hloop. rewrite run_app.
  destruct (Value trie) as [v|]; simpl; [|apply Hloop].
  destruct (walker "" v s) as [s' [err|]]; [done|]. apply Hloop.
Qed.

(** C6. When the segmenter marks the last segment of the key with the
    next index [-1] and gives every other segment an index into the key
    (and, for a key without segments, the root has no child under the
    empty segment), [WalkPath] visits the value-holding nodes of the
    chain from the root along the segments of the key, in that order:
    the root under the empty string, every further node under the prefix
    of the key consumed so far, the node of the last segment under the
    whole key. It ends where a child is missing, and returns nil unless
    the walker returned an error. *)
Theorem WalkPath_visits_the_chain {St Err} (walker : WalkFunc T St Err)
    fuel (trie : PathTrie T) key segs s :
  segments fuel key = Some segs →
  well_marked key segs →
  (segs = [] → Children trie !! "" = None) →
  WalkPath walker trie key s = ended false (run walker (path_visits trie key segs) s).
Proof.
  unfold Trie.segments. intros Hs Hm Hroot. apply WalkPath_root. intros s'.
  destruct (segmenter key 0%Z) as [part i]. by eapply WalkPath_loop_segments.
Qed.

(** *** Delete *)

Lemma Delete_loop_unfold (node : PathTrie T) key part i :
  Delete_loop node key part i =
    if decide (part = "") then
      Some (bool_decide (is_Some (Value node)), Node None (Children node))
    else
      child ← Children node !! part;
      '(removed, child) ← Delete_loop child key (segmenter key i).1 (segmenter key i).2;
      Some (removed,
            Node (Value node)
              (if prunable child then delete part (Children node)
               else <[part := child]> (Children node))).
Proof.
  destruct node as [v ch]; simpl. rewrite lookup_fmap.
  destruct (ch !! part); simpl; [|done]. by destruct (segmenter key i).
Qed.

Lemma pruned_child (trie child : PathTrie T) part :
  pruned trie → Children trie !! part = Some child →
  prunable child = false ∧ pruned child.
Proof.
  intros Hp Hc. split.
  - apply (Hp [part]); [done|]. simpl. by rewrite Hc.
  - intros path node Hne Hn. apply (Hp (part :: path)); [done|]. simpl. by rewrite Hc.
Qed.

Lemma Delete_loop_absent (node : PathTrie T) key part i :
  pruned node →
  terminal_from node key part i ≫= Value = None →
  Delete_loop node key part i = None ∨ Delete_loop node key part i = Some (false, node).
Proof.
  revert part i. induction node as [node IH] using PathTrie_children_ind.
  intros part i Hp. rewrite terminal_from_unfold, Delete_loop_unfold. case_decide.
  - simpl. intros Hv. right. destruct node as [v ch]; simpl in *. by subst v.
  - destruct (Children node !! part) as [child|] eqn:Hc; simpl; [|by left].
    destruct (pruned_child _ _ _ Hp Hc) as [Hchild Hpc]. intros Hv.
    destruct (IH part child Hc _ _ Hpc Hv) as [->| ->]; simpl; [by left|right].
    rewrite Hchild, insert_id by done. by destruct node.
Qed.

(** C8. On a trie that satisfies the pruning invariant, [Delete] of a
    key at which no value is stored returns false and leaves the trie
    as it is. *)
Theorem Delete_absent_key (trie : PathTrie T) key :
  pruned trie → stored_at trie key = None → Delete trie key = (false, trie).
Proof.
  unfold Trie.stored_at, Trie.terminal, Trie.Delete.
  destruct (segmenter key 0%Z) as [part i]. intros Hp Hv.
  by destruct (Delete_loop_absent trie key part i Hp Hv) as [->| ->].
Qed.

(** *** RecursiveDirectChildren *)

Lemma foldl_ext_elem {A B} (f g : A → B → A) (l : list B) a :
  (∀ a b, b ∈ l → f a b = g a b) → foldl f a l = foldl g a l.
Proof.
  revert a. induction l as [|b l IH]; intros a Hfg; simpl; [done|].
  rewrite Hfg by left. apply IH. intros ???. apply Hfg. by right.
Qed.

Lemma foldl_bind {A B C} (f : A → C → A) (g : B → list C) (l : list B) a :
  foldl f a (l ≫= g) = foldl (λ a b, foldl f a (g b)) a l.
Proof.
  revert a. induction l as [|b l IH]; intros a; [done|].
  by rewrite bind_cons, foldl_app, IH.
Qed.

(** Writing a list of entries into a map, one after the other. *)
Local Abbreviation write_all :=
  (foldl (λ (m : gmap string (PathTrie T)) kc, <[kc.1 := kc.2]> m)).

Lemma write_all_other (l : list (string * PathTrie T)) m key :
  key ∉ l.*1 → write_all m l !! key = m !! key.
Proof.
  revert m. induction l as [|[k c] l IH]; intros m Hkey; simpl; [done|].
  rewrite fmap_cons, not_elem_of_cons in Hkey. destruct Hkey as [Hk Hl].
  rewrite IH by done. by rewrite lookup_insert_ne.
Qed.

Lemma write_all_sound (l : list (string * PathTrie T)) m key c :
  write_all m l !! key = Some c → (key, c) ∈ l ∨ m !! key = Some c.
Proof.
  revert m. induction l as [|[k c'] l IH]; intros m; simpl; [by right|].
  intros [Hl|Hm]%IH; [left; by right|].
  destruct (decide (k = key)) as [->|Hne].
  - rewrite lookup_insert_eq in Hm. injection Hm as ->. left. by left.
  - rewrite lookup_insert_ne in Hm by done. by right.
Qed.

Lemma write_all_complete (l : list (string * PathTrie T)) m key c :
  NoDup l.*1 → (key, c) ∈ l → write_all m l !! key = Some c.
Proof.
  revert m. induction l as [|[k c'] l IH]; intros m Hnd Hin; simpl.
  { by apply elem_of_nil in Hin. }
  rewrite fmap_cons in Hnd. apply NoDup_cons in Hnd as [Hk Hnd].
  apply elem_of_cons in Hin as [[= -> ->]|Hin]; [|by apply IH].
  rewrite write_all_other by done. apply lookup_insert_eq.
Qed.

Lemma RecursiveDirectChildren_unfold (trie : PathTrie T) :
  RecursiveDirectChildren trie = write_all ∅ (written_entries trie).
Proof.
  unfold Trie.written_entries. rewrite foldl_bind.
  destruct trie as [v ch]; simpl. rewrite range_fold.
  apply foldl_ext_elem. intros m [part child] Hin%elem_of_range_entries.
  unfold Trie.branch_entries; simpl.
  destruct (Value child); [done|].
  rewrite lookup_fmap, Hin. simpl. by rewrite range_fold, foldl_fmap.
Qed.

(** Every entry of the result is a nearest value-holding descendant,
    under the concatenation of the segments that lead to it. *)
Lemma RecursiveDirectChildren_sound (trie : PathTrie T) key node :
  RecursiveDirectChildren trie !! key = Some node →
  ∃ path, nearest trie path node ∧ join path = key.
Proof.
  revert key node. induction trie as [trie IH] using PathTrie_children_ind.
  intros key node. rewrite RecursiveDirectChildren_unfold.
  intros [Hin|Hm]%write_all_sound; [|by rewrite lookup_empty in Hm].
  apply list_elem_of_bind in Hin as ([part child] & Hin & Hpc%elem_of_range_entries).
  unfold Trie.branch_entries in Hin; simpl in Hin.
  destruct (Value child) as [v|] eqn:Hv.
  - apply list_elem_of_singleton in Hin as [= -> ->].
    exists [part]. split; [|apply append_empty_r]. simpl. exists child. by rewrite Hv.
  - apply list_elem_of_fmap in Hin as ([cPart cChild] & [= -> ->] & Hc%elem_of_range_entries).
    destruct (IH part child Hpc _ _ Hc) as (path & Hnear & <-).
    exists (part :: path). split; [|done]. simpl. exists child. by rewrite Hv.
Qed.

Lemma distinct_keys_child (trie child : PathTrie T) part :
  distinct_keys trie → Children trie !! part = Some child → Value child = None →
  distinct_keys child.
Proof.
  intros Hd Hc Hv path1 node1 path2 node2 H1 H2 Hjoin.
  assert (part :: path1 = part :: path2) as [=]; [|done].
  apply (Hd _ node1 _ node2); simpl; [..|by rewrite Hjoin]; exists child; by rewrite Hv.
Qed.

Lemma branch_entries_nearest (trie : PathTrie T) part child key node :
  Children trie !! part = Some child → (key, node) ∈ branch_entries (part, child) →
  ∃ path, nearest trie (part :: path) node ∧ join (part :: path) = key.
Proof.
  intros Hpc Hin. unfold Trie.branch_entries in Hin; simpl in Hin.
  destruct (Value child) as [v|] eqn:Hv.
  - apply list_elem_of_singleton in Hin as [= -> ->].
    exists []. split; [|apply append_empty_r]. simpl. exists child. by rewrite Hv.
  - apply list_elem_of_fmap in Hin as ([cPart cChild] & [= -> ->] & Hc%elem_of_range_entries).
    destruct (RecursiveDirectChildren_sound _ _ _ Hc) as (path & Hnear & <-).
    exists path. split; [|done]. simpl. exists child. by rewrite Hv.
Qed.

Lemma NoDup_written_entries (trie : PathTrie T) :
  distinct_keys trie → NoDup (written_entries trie).*1.
Proof.
  intros Hd. unfold Trie.written_entries. rewrite fmap_list_bind. apply NoDup_bind.
  - intros [part1 child1] [part2 child2] key H1%elem_of_range_entries H2%elem_of_range_entries.
    intros ([k1 n1] & Hk1 & Hin1)%list_elem_of_fmap ([k2 n2] & Hk2 & Hin2)%list_elem_of_fmap.
    simpl in *; subst k1 k2.
    destruct (branch_entries_nearest _ _ _ _ _ H1 Hin1) as (p1 & Hn1 & Hj1).
    destruct (branch_entries_nearest _ _ _ _ _ H2 Hin2) as (p2 & Hn2 & Hj2).
    assert (part1 :: p1 = part2 :: p2) as [= <- _] by (eapply Hd; [done..|congruence]).
    congruence.
  - intros [part child] Hpc%elem_of_range_entries. unfold Trie.branch_entries; simpl.
    destruct (Value child); [apply NoDup_singleton|].
    rewrite <- list_fmap_compose.
    change (fst ∘ prod_map (String.append part) id)
      with (String.append part ∘ (@fst string (PathTrie T))).
    rewrite list_fmap_compose. apply NoDup_fmap_2; [apply _|]. apply NoDup_range_entries.
  - eapply NoDup_fmap_1, NoDup_range_entries.
Qed.

Lemma RecursiveDirectChildren_complete (trie : PathTrie T) path node :
  distinct_keys trie → nearest trie path node →
  RecursiveDirectChildren trie !! join path = Some node.
Proof.
  revert path node. induction trie as [trie IH] using PathTrie_children_ind.
  intros path node Hd Hnear. rewrite RecursiveDirectChildren_unfold.
  apply write_all_complete; [by apply NoDup_written_entries|].
  destruct path as [|part path]; [done|]. destruct Hnear as (child & Hpc & Hnear).
  apply list_elem_of_bind. exists (part, child). split; [|by apply elem_of_range_entries].
  unfold Trie.branch_entries; simpl. destruct (Value child) as [v|] eqn:Hv.
  - destruct Hnear as [-> ->]. unfold join; simpl. rewrite append_empty_r. by left.
  - apply list_elem_of_fmap. exists (join path, node). split; [done|].
    apply elem_of_range_entries. apply (IH part child Hpc); [|done].
    by eapply distinct_keys_child.
Qed.

(** C9, amended. When distinct nearest value-holding descendants of a
    node have distinct concatenated keys, [RecursiveDirectChildren]
    returns exactly the mapping from the concatenation of the segments
    leading to each nearest value-holding descendant to that
    descendant. *)
Theorem RecursiveDirectChildren_nearest (trie : PathTrie T) :
  distinct_keys trie →
  ∀ key node,
    RecursiveDirectChildren trie !! key = Some node
    ↔ ∃ path, nearest trie path node ∧ join path = key.
Proof.
  intros Hd key node. split; [apply RecursiveDirectChildren_sound|].
  intros (path & Hnear & <-). by apply RecursiveDirectChildren_complete.
Qed.

(** *** Merge *)

Lemma Merge_unfold (trie : PathTrie T) :
  Merge trie =
    Node (Value trie)
      (foldl (λ st pc, Merge_round pc.1 (Merge pc.2) st) (Children trie, ∅)
         (range_entries (Children trie))).1.
Proof.
  destruct trie as [v ch]; simpl. by rewrite range_fold, range_entries_fmap, foldl_fmap.
Qed.

Lemma Value_Merge (trie : PathTrie T) : Value (Merge trie) = Value trie.
Proof. by rewrite Merge_unfold. Qed.

(** What a splice writes, and what it leaves alone. *)
Lemma splice_spec part (grandchildren : gmap string (PathTrie T)) st :
  (∀ k, k ∈ (splice part grandchildren st).2 →
        k ∈ st.2 ∨ ∃ cPart, is_Some (grandchildren !! cPart) ∧ k = part +:+ cPart)
  ∧ (∀ k, (∀ cPart, is_Some (grandchildren !! cPart) → k ≠ part +:+ cPart) →
          (splice part grandchildren st).1 !! k = st.1 !! k)
  ∧ (∀ k, is_Some ((splice part grandchildren st).1 !! k) →
          is_Some (st.1 !! k) ∨ ∃ cPart, k = part +:+ cPart).
Proof.
  unfold Trie.splice. rewrite range_fold.
  assert (∀ pc, pc ∈ range_entries grandchildren → is_Some (grandchildren !! pc.1)) as Hin.
  { intros [cPart cChild] ?%elem_of_range_entries. by exists cChild. }
  revert st. induction (range_entries grandchildren) as [|[cPart cChild] l IH]; intros st.
  { simpl. split_and!; [by left|done|by left]. }
  simpl. destruct st as [children written]. simpl.
  destruct (IH (λ pc Hpc, Hin pc (list_elem_of_further _ _ _ Hpc))
              (<[part +:+ cPart := cChild]> children, {[part +:+ cPart]} ∪ written))
    as (Hw & Hc & Hs).
  assert (is_Some (grandchildren !! cPart)) as HcPart by (apply (Hin (cPart, cChild)); by left).
  split_and!.
  - intros k [Hk|Hk]%Hw; [|by right]. simpl in Hk.
    apply elem_of_union in Hk as [->%elem_of_singleton|Hk]; [right; eauto|by left].
  - intros k Hk. rewrite Hc by done. simpl. apply lookup_insert_ne.
    intros Heq. by apply (Hk cPart).
  - intros k [Hk|Hk]%Hs; [|by right]. simpl in Hk.
    apply lookup_insert_is_Some in Hk as [<-|[_ Hk]]; [right; eauto|by left].
Qed.

Section Merging.
Variable is_seg : string → Prop.
Hypothesis is_seg_indivisible : indivisible is_seg.

Lemma is_seg_not_led_by_two k : is_seg k → ¬ led_by_two is_seg k.
Proof. intros Hk (a & b & rest & Ha & Hb & ->). by apply (is_seg_indivisible a b rest). Qed.

(** One round keeps the written keys led by two segments, and changes
    the entry of no segment but its own. *)
Lemma Merge_round_spec part (child : PathTrie T) st :
  is_seg part →
  (∀ cPart, is_Some (Children child !! cPart) → led_by is_seg cPart) →
  (∀ k, k ∈ st.2 → led_by_two is_seg k) →
  (∀ k, k ∈ (Merge_round part child st).2 → led_by_two is_seg k)
  ∧ (∀ k, is_seg k → k ≠ part → (Merge_round part child st).1 !! k = st.1 !! k)
  ∧ (is_Some (Value child) → (Merge_round part child st).1 !! part = Some child).
Proof.
  intros Hpart Hled Hwritten. unfold Trie.Merge_round.
  rewrite decide_False by (intros ?%Hwritten; by eapply is_seg_not_led_by_two).
  destruct (Value child) as [v|] eqn:Hv; simpl.
  { split_and!; [done| |].
    - intros k _ Hk. by apply lookup_insert_ne.
    - intros _. apply lookup_insert_eq. }
  destruct (splice_spec part (Children child) st) as (Hw & Hc & _).
  destruct (splice part (Children child) st) as [children written]; simpl in *.
  split_and!.
  - intros k [Hk|(cPart & HcPart & ->)]%Hw; [by apply Hwritten|].
    destruct (Hled cPart HcPart) as (b & rest & Hb & ->). by exists part, b, rest.
  - intros k Hk Hne. rewrite lookup_delete_ne by done. apply Hc.
    intros cPart HcPart ->. destruct (Hled cPart HcPart) as (b & rest & Hb & ->).
    by apply (is_seg_indivisible part b rest).
  - by intros [? [=]].
Qed.

(** The keys of a merged node start with a segment. *)
Lemma Merge_rounds_keys_led (l : list (string * PathTrie T)) st k :
  (∀ pc, pc ∈ l → is_seg pc.1) →
  (∀ k, is_Some (st.1 !! k) → led_by is_seg k) →
  is_Some ((foldl (λ st pc, Merge_round pc.1 (Merge pc.2) st) st l).1 !! k) →
  led_by is_seg k.
Proof.
  revert st. induction l as [|[part child] l IH]; intros st Hin Hstart; simpl; [apply Hstart|].
  apply IH; [intros pc Hpc; apply Hin; by right|].
  assert (is_seg part) as Hpart by (apply (Hin (part, child)); by left).
  intros k'. unfold Trie.Merge_round; simpl. case_decide; [apply Hstart|].
  destruct (Value (Merge child)); simpl.
  { intros [<-|[_ Hk']]%lookup_insert_is_Some; [|by apply Hstart].
    exists part, "". by rewrite append_empty_r. }
  destruct (splice_spec part (Children (Merge child)) st) as (_ & _ & Hs).
  destruct (splice part _ _) as [children' written']; simpl in *.
  intros [Hne [Hk'|[cPart ->]]%Hs]%lookup_delete_is_Some; [by apply Hstart|].
  by exists part, cPart.
Qed.

Lemma Merge_keys_led (trie : PathTrie T) k :
  keys_in is_seg trie → is_Some (Children (Merge trie) !! k) → led_by is_seg k.
Proof.
  intros Hkeys. rewrite Merge_unfold. simpl. apply Merge_rounds_keys_led.
  - intros [part child] Hpc%elem_of_range_entries. apply (Hkeys [] trie); [done|].
    by exists child.
  - intros k' Hk'. exists k', "". split; [|by rewrite append_empty_r].
    by apply (Hkeys [] trie).
Qed.

Lemma keys_in_child P (trie child : PathTrie T) part :
  keys_in P trie → Children trie !! part = Some child → keys_in P child.
Proof.
  intros Hkeys Hc path node k Hn. apply (Hkeys (part :: path) node). simpl. by rewrite Hc.
Qed.

(** The rounds on the entries [l] keep every value-holding child among
    them under its segment, merged, and leave the other segments alone. *)
Lemma Merge_rounds_spec (l : list (string * PathTrie T)) st :
  NoDup l.*1 →
  (∀ pc, pc ∈ l → is_seg pc.1 ∧ keys_in is_seg pc.2) →
  (∀ k, k ∈ st.2 → led_by_two is_seg k) →
  let st' := foldl (λ st pc, Merge_round pc.1 (Merge pc.2) st) st l in
  (∀ k, k ∈ st'.2 → led_by_two is_seg k)
  ∧ (∀ k, is_seg k → k ∉ l.*1 → st'.1 !! k = st.1 !! k)
  ∧ (∀ part child, (part, child) ∈ l → is_Some (Value child) →
       st'.1 !! part = Some (Merge child)).
Proof.
  revert st. induction l as [|[part child] l IH]; intros st Hnd Hin Hwritten; simpl.
  { split_and!; [done..|]. intros ?? []%elem_of_nil. }
  rewrite fmap_cons in Hnd. apply NoDup_cons in Hnd as [Hpart_l Hnd]. simpl in Hpart_l.
  destruct (Hin (part, child)) as [Hpart Hkeys]; [by left|]. simpl in *.
  destruct (Merge_round_spec part (Merge child) st Hpart) as (Hw1 & Hother1 & Hown1);
    [intros cPart; by apply Merge_keys_led|done|].
  destruct (IH (Merge_round part (Merge child) st) Hnd) as (Hw & Hother & Hown);
    [intros pc Hpc; apply Hin; by right|done|].
  split_and!; [done| |].
  - intros k Hk [Hne Hk_l]%not_elem_of_cons. rewrite Hother by done. by apply Hother1.
  - intros part' child' [[= -> ->]|Hin']%elem_of_cons Hv; [|by apply Hown].
    rewrite Hother by done. apply Hown1. by rewrite Value_Merge.
Qed.

(** [Merge] keeps a value-holding child under its segment. *)
Lemma Merge_valued_child (trie child : PathTrie T) part :
  keys_in is_seg trie → Children trie !! part = Some child → is_Some (Value child) →
  Children (Merge trie) !! part = Some (Merge child).
Proof.
  intros Hkeys Hc Hv. rewrite Merge_unfold. simpl.
  destruct (Merge_rounds_spec (range_entries (Children trie)) (Children trie, ∅))
    as (_ & _ & Hown).
  - apply NoDup_range_entries.
  - intros [part' child'] Hpc%elem_of_range_entries. split.
    + apply (Hkeys [] trie); [done|]. by exists child'.
    + by eapply keys_in_child.
  - intros k []%elem_of_empty.
  - apply Hown; [|done]. by apply elem_of_range_entries.
Qed.

Lemma Merge_valued_path (trie : PathTrie T) path v :
  keys_in is_seg trie → valued_path trie path v → valued_path (Merge trie) path v.
Proof.
  revert trie. induction path as [|part path IH]; intros trie Hkeys; simpl.
  { by rewrite Value_Merge. }
  intros (child & Hc & Hv & Hpath). exists (Merge child). split_and!.
  - by apply Merge_valued_child.
  - by rewrite Value_Merge.
  - apply IH; [|done]. by eapply keys_in_child.
Qed.

End Merging.

Lemma valued_path_value_at (trie : PathTrie T) path v :
  valued_path trie path v → value_at trie path = Some v.
Proof.
  unfold value_at. revert trie. induction path as [|part path IH]; intros trie; simpl; [done|].
  intros (child & -> & _ & Hpath). simpl. by apply IH.
Qed.

(** C3, amended. On a trie whose children are keyed by segments of an
    indivisible family, [Merge] preserves [Get(key)] for every key whose
    value is reached through nodes that all hold a value. *)
Theorem Merge_preserves_Get_on_valued_paths (is_seg : string → Prop)
    fuel (trie : PathTrie T) key segs v :
  indivisible is_seg →
  keys_in is_seg trie →
  segments fuel key = Some segs →
  valued_path trie segs.*1 v →
  Get trie key = Return v ∧ Get (Merge trie) key = Return v.
Proof.
  intros Hind Hkeys Hs Hpath.
  assert (∀ t, valued_path t segs.*1 v → Get t key = Return v) as HGet.
  { intros t Ht%valued_path_value_at. rewrite Get_terminal.
    rewrite <- (stored_at_value_at fuel t key) in Ht by done.
    unfold Trie.stored_at in Ht. destruct (terminal t key) as [node|]; [|done].
    simpl in Ht. by rewrite Ht. }
  split; apply HGet; [done|]. by eapply Merge_valued_path.
Qed.

(** *** The rounds of Merge on entries written on the way *)

Lemma splice_unfold part (grandchildren : gmap string (PathTrie T)) st :
  splice part grandchildren st =
    (write_all st.1 (prod_map (String.append part) id <$> range_entries grandchildren),
     list_to_set (String.append part <$> (range_entries grandchildren).*1) ∪ st.2).
Proof.
  unfold Trie.splice. rewrite range_fold. revert st.
  induction (range_entries grandchildren) as [|[cPart cChild] l IH]; intros [children written].
  { simpl. f_equal. set_solver. }
  simpl. rewrite IH. simpl. f_equal. set_solver.
Qed.

Lemma splice_written part (grandchildren : gmap string (PathTrie T)) st k :
  k ∈ (splice part grandchildren st).2
  ↔ k ∈ st.2 ∨ ∃ cPart, is_Some (grandchildren !! cPart) ∧ k = part +:+ cPart.
Proof.
  rewrite splice_unfold. simpl. rewrite elem_of_union, elem_of_list_to_set, list_elem_of_fmap.
  split.
  - intros [(cPart & -> & Hin)|Hk]; [right|by left].
    apply list_elem_of_fmap in Hin as ([cPart' cChild] & -> & Hin%elem_of_range_entries).
    exists cPart'. split; [by exists cChild|done].
  - intros [Hk|(cPart & [cChild Hc] & ->)]; [by right|left].
    exists cPart. split; [done|]. apply list_elem_of_fmap. exists (cPart, cChild).
    split; [done|]. by apply elem_of_range_entries.
Qed.

Lemma splice_spliced part (grandchildren : gmap string (PathTrie T)) st cPart cChild :
  grandchildren !! cPart = Some cChild →
  (splice part grandchildren st).1 !! (part +:+ cPart) = Some cChild.
Proof.
  intros Hc. rewrite splice_unfold. simpl. apply write_all_complete.
  - rewrite <- list_fmap_compose.
    change (fst ∘ prod_map (String.append part) id)
      with (String.append part ∘ (@fst string (PathTrie T))).
    rewrite list_fmap_compose. apply NoDup_fmap_2; [apply _|]. apply NoDup_range_entries.
  - apply list_elem_of_fmap. exists (cPart, cChild). split; [done|].
    by apply elem_of_range_entries.
Qed.

(** A trie is settled when its children hold a value and are settled. *)
Lemma settled_children (trie : PathTrie T) :
  settled trie ↔ ∀ k c, Children trie !! k = Some c → is_Some (Value c) ∧ settled c.
Proof.
  split.
  - intros Hs k c Hc. split.
    + apply (Hs [k]); [done|]. simpl. by rewrite Hc.
    + intros path node Hne Hn. apply (Hs (k :: path)); [done|]. simpl. by rewrite Hc.
  - intros Hgood [|k path] node Hne; [done|]. simpl.
    destruct (Children trie !! k) as [c|] eqn:Hc; [|done]. simpl.
    destruct (Hgood k c Hc) as [Hv Hs]. destruct path as [|k' path]; [by intros [= <-]|].
    by apply Hs.
Qed.

(** The rounds of [Merge] leave every entry they have visited or written
    holding a value, and settled. [visited] are the keys of the rounds
    made so far. *)
Lemma Merge_rounds_settle (l : list (string * PathTrie T)) st (visited : gset string) :
  (∀ pc, pc ∈ l → settled pc.2) →
  (∀ k c, st.1 !! k = Some c → k ∈ visited ∨ k ∈ st.2 → is_Some (Value c) ∧ settled c) →
  let st' := foldl (λ st pc, Merge_round pc.1 pc.2 st) st l in
  ∀ k c, st'.1 !! k = Some c → k ∈ visited ∨ k ∈ st'.2 ∨ k ∈ l.*1 →
         is_Some (Value c) ∧ settled c.
Proof.
  revert st visited. induction l as [|[part child] l IH]; intros st visited Hch Hst; simpl.
  { intros k c Hk [?|[?|[]%elem_of_nil]]; eapply Hst; eauto. }
  intros k c Hk Hwhere.
  apply (IH (Merge_round part child st) ({[part]} ∪ visited)) with (k := k); try done.
  { intros pc Hpc. apply Hch. by right. }
  2:{ simpl in Hwhere. rewrite elem_of_cons in Hwhere. set_solver. }
  clear k c Hk Hwhere. intros k c. unfold Trie.Merge_round.
  case_decide as Hwritten.
  { intros Hk [[->%elem_of_singleton|Hv]%elem_of_union|Hw]; eapply Hst; eauto. }
  destruct (Value child) as [v|] eqn:Hv; simpl.
  { destruct (decide (part = k)) as [<-|Hne].
    - rewrite lookup_insert_eq. intros [= <-] _. rewrite Hv. split; [done|].
      apply (Hch (part, child)). by left.
    - rewrite lookup_insert_ne by done. intros Hk Hor. eapply Hst; [done|]. set_solver. }
  pose proof (splice_written part (Children child) st) as Hw.
  pose proof (splice_spliced part (Children child) st) as Hsp.
  destruct (splice_spec part (Children child) st) as (_ & Hother & _).
  destruct (splice part (Children child) st) as [children written]; simpl in *.
  intros [Hne Hk]%lookup_delete_Some Hor.
  destruct (decide (k ∈ (set_map (String.append part) (dom (Children child)) : gset string)))
    as [Hin|Hnot].
  - apply elem_of_map in Hin as (cPart & -> & [cChild Hc]%elem_of_dom).
    rewrite (Hsp _ _ Hc) in Hk. injection Hk as <-.
    by apply (proj1 (settled_children child) (Hch (part, child) ltac:(by left)) cPart).
  - assert (∀ cPart, is_Some (Children child !! cPart) → k ≠ part +:+ cPart) as Hk'.
    { intros cPart HcPart ->. apply Hnot, elem_of_map. exists cPart. split; [done|].
      by apply elem_of_dom. }
    rewrite Hother in Hk by done. eapply Hst; [done|].
    destruct Hor as [[->%elem_of_singleton|?]%elem_of_union|[?|(cPart & ? & ->)]%Hw];
      [done|by left|by right|]. by destruct (Hk' cPart).
Qed.

Lemma Merge_round_keys part (child : PathTrie T) st k :
  (k ∈ st.2 → k ∈ (Merge_round part child st).2)
  ∧ (is_Some ((Merge_round part child st).1 !! k) →
     is_Some (st.1 !! k) ∨ k = part ∨ k ∈ (Merge_round part child st).2).
Proof.
  unfold Trie.Merge_round. case_decide; [by auto|].
  destruct (Value child); simpl.
  { split; [done|]. intros [->|[_ Hk]]%lookup_insert_is_Some; auto. }
  pose proof (splice_written part (Children child) st k) as Hw.
  destruct (splice_spec part (Children child) st) as (_ & Hother & _).
  destruct (splice part (Children child) st) as [children written]; simpl in *.
  split; [intros Hk; apply Hw; by left|].
  intros [Hne Hk]%lookup_delete_is_Some.
  destruct (decide (k ∈ written)) as [?|Hnot]; [by auto|]. left.
  rewrite <- Hother; [done|]. intros cPart HcPart ->. apply Hnot, Hw. eauto.
Qed.

Lemma Merge_rounds_keys (l : list (string * PathTrie T)) st k :
  let st' := foldl (λ st pc, Merge_round pc.1 pc.2 st) st l in
  (k ∈ st.2 → k ∈ st'.2)
  ∧ (is_Some (st'.1 !! k) → is_Some (st.1 !! k) ∨ k ∈ l.*1 ∨ k ∈ st'.2).
Proof.
  revert st. induction l as [|[part child] l IH]; intros st; simpl; [by auto|].
  destruct (IH (Merge_round part child st)) as [Hmono Hdom].
  destruct (Merge_round_keys part child st k) as [Hmono1 Hdom1].
  split; [by auto|]. intros [Hk|[Hk|Hk]]%Hdom; [|set_solver..].
  destruct (Hdom1 Hk) as [?|[->|?]]; [by auto|set_solver|by auto].
Qed.

(** After [Merge], every node below the root holds a value. *)
Lemma Merge_settles (trie : PathTrie T) : settled (Merge trie).
Proof.
  induction trie as [trie IH] using PathTrie_children_ind.
  apply settled_children. rewrite Merge_unfold. simpl. intros k c Hk.
  pose proof (Merge_rounds_settle (prod_map id Merge <$> range_entries (Children trie))
                (Children trie, ∅) ∅) as Hrounds.
  pose proof (Merge_rounds_keys (prod_map id Merge <$> range_entries (Children trie))
                (Children trie, ∅) k) as [_ Hkeys].
  rewrite foldl_fmap in Hrounds, Hkeys. eapply Hrounds; [..|exact Hk|].
  - intros pc ([part child] & -> & Hpc%elem_of_range_entries)%list_elem_of_fmap.
    by apply (IH part child).
  - intros k' c' _ [[]%elem_of_empty|[]%elem_of_empty].
  - right. destruct Hkeys as [Hstart|[?|?]]; [by eexists| |by right|by left].
    right. rewrite <- list_fmap_compose.
    change (fst ∘ prod_map id Merge) with (@fst string (PathTrie T)).
    rewrite range_entries_keys, range_keys_perm, elem_of_elements. by apply elem_of_dom.
Qed.

(** On a trie whose nodes below the root all hold a value, [Merge]
    changes nothing. *)
Lemma Merge_settled (trie : PathTrie T) : settled trie → Merge trie = trie.
Proof.
  induction trie as [trie IH] using PathTrie_children_ind. intros Hs.
  pose proof (proj1 (settled_children trie) Hs) as Hch. rewrite Merge_unfold.
  enough (foldl (λ st pc, Merge_round pc.1 (Merge pc.2) st) (Children trie, ∅)
            (range_entries (Children trie)) = (Children trie, ∅)) as ->
    by by destruct trie.
  assert (∀ pc, pc ∈ range_entries (Children trie) → Children trie !! pc.1 = Some pc.2) as Hin.
  { by intros [part child] ?%elem_of_range_entries. }
  induction (range_entries (Children trie)) as [|[part child] l IHl]; simpl; [done|].
  assert (Children trie !! part = Some child) as Hc by (apply (Hin (part, child)); by left).
  destruct (Hch part child Hc) as [[v Hv] Hsc].
  unfold Trie.Merge_round at 2; simpl. rewrite decide_False by set_solver.
  rewrite (IH part child Hc Hsc), Hv, insert_id by done.
  apply IHl. intros pc Hpc. apply Hin. by right.
Qed.

(** So a round of [Merge] on an entry of a merged node does nothing to
    that entry: the merge of a merged node is the node. *)
Lemma Merge_Merge (trie : PathTrie T) : Merge (Merge trie) = Merge trie.
Proof. apply Merge_settled, Merge_settles. Qed.

(** *** What Get returns, by the terminal node of the key *)

(** A child missing on the way: the zero value. *)
Lemma Get_missing_child trie key :
  terminal trie key = None → Get trie key = Return zero.
Proof. intros Ht. by rewrite Get_terminal, Ht. Qed.

(** A terminal node without value: the nil [Value] is dereferenced. *)
Lemma Get_nil_Value trie key node :
  terminal trie key = Some node → Value node = None → Get trie key = Panic.
Proof. intros Ht Hv. by rewrite Get_terminal, Ht, Hv. Qed.

(** *** What Put leaves alone *)

Lemma value_at_newPathTrie path : value_at (newPathTrie : PathTrie T) path = None.
Proof. by destruct path. Qed.

Lemma Put_loop_keeps_other_values fuel (node node' : PathTrie T) key part i value segs path :
  segments_from fuel key part i = Some segs →
  Put_loop fuel node key part i value = Some node' →
  path ≠ segs.*1 →
  value_at node' path = value_at node path.
Proof.
  revert node node' part i segs path.
  induction fuel as [|fuel IH]; intros node node' part i segs path;
    rewrite segments_from_unfold, Put_loop_unfold; case_decide as Hpart; try done.
  - intros [= <-] [= <-] Hpath. by destruct path.
  - intros [= <-] [= <-] Hpath. by destruct path.
  - destruct (segments_from fuel _ _ _) as [segs'|] eqn:Hs; [|done]. intros [= <-].
    destruct (Put_loop fuel _ _ _ _ _) as [child'|] eqn:HP; [|done]. intros [= <-] Hpath.
    destruct path as [|part' path]; [done|]. unfold value_at in *. simpl in *.
    destruct (decide (part = part')) as [<-|Hne]; [|by rewrite lookup_insert_ne].
    rewrite lookup_insert_eq. simpl.
    rewrite (IH _ _ _ _ _ path Hs HP) by (intros ->; by apply Hpath).
    destruct (Children node !! part); [done|]. apply value_at_newPathTrie.
Qed.

(** [Put(key, value)] changes the value of no node but the terminal
    node of [key]. *)
Lemma Put_keeps_other_values fuel (trie trie' : PathTrie T) key value segs path :
  segments fuel key = Some segs →
  Put fuel trie key value = Some trie' →
  path ≠ segs.*1 →
  value_at trie' path = value_at trie path.
Proof.
  unfold Trie.segments, Trie.Put. destruct (segmenter key 0%Z) as [part i].
  apply Put_loop_keeps_other_values.
Qed.

(** [Put(key, value)] changes the value stored at no key with other
    segments. *)
Lemma Put_keeps_other_keys fuel fuel' (trie trie' : PathTrie T) key value segs key' segs' :
  segments fuel key = Some segs →
  segments fuel' key' = Some segs' →
  segs'.*1 ≠ segs.*1 →
  Put fuel trie key value = Some trie' →
  stored_at trie' key' = stored_at trie key'.
Proof.
  intros Hs Hs' Hne HPut. rewrite !(stored_at_value_at fuel' _ key' segs') by done.
  exact (Put_keeps_other_values fuel trie trie' key value segs _ Hs HPut Hne).
Qed.

(** *** Invariants of the tries Put builds *)

Lemma keys_in_newPathTrie P : keys_in P (newPathTrie : PathTrie T).
Proof.
  intros [|part path] node k; simpl; [|done]. intros [= <-]. simpl.
  rewrite lookup_empty. by intros [? [=]].
Qed.

Lemma Put_loop_keys_in P fuel (node node' : PathTrie T) key part i value segs :
  segments_from fuel key part i = Some segs →
  Forall P segs.*1 →
  Put_loop fuel node key part i value = Some node' →
  keys_in P node → keys_in P node'.
Proof.
  revert node node' part i segs.
  induction fuel as [|fuel IH]; intros node node' part i segs;
    rewrite segments_from_unfold, Put_loop_unfold; case_decide as Hpart; try done.
  - intros _ _ [= <-] Hkeys [|p path] n k; simpl.
    + intros [= <-]. apply (Hkeys [] node). done.
    + apply (Hkeys (p :: path) n).
  - intros _ _ [= <-] Hkeys [|p path] n k; simpl.
    + intros [= <-]. apply (Hkeys [] node). done.
    + apply (Hkeys (p :: path) n).
  - destruct (segments_from fuel _ _ _) as [segs'|] eqn:Hs; [|done]. intros [= <-].
    rewrite fmap_cons, Forall_cons. intros [HP Hsegs].
    destruct (Put_loop fuel _ _ _ _ _) as [child'|] eqn:HPut; [|done]. intros [= <-] Hkeys.
    assert (keys_in P child') as Hchild.
    { eapply (IH _ _ _ _ _ Hs Hsegs HPut).
      destruct (Children node !! part) as [child|] eqn:Hc; simpl.
      - by eapply keys_in_child.
      - apply keys_in_newPathTrie. }
    intros [|p path] n k; simpl.
    + intros [= <-]. simpl. intros [->|[_ Hk]]%lookup_insert_is_Some; [done|].
      by apply (Hkeys [] node).
    + destruct (decide (part = p)) as [<-|Hne].
      * rewrite lookup_insert_eq. simpl. apply Hchild.
      * rewrite lookup_insert_ne by done. apply (Hkeys (p :: path) n).
Qed.

(** [Put] keys the children it creates by the segments of its key. *)
Lemma Put_keys_in P fuel (trie trie' : PathTrie T) key value segs :
  segments fuel key = Some segs →
  Forall P segs.*1 →
  Put fuel trie key value = Some trie' →
  keys_in P trie → keys_in P trie'.
Proof.
  unfold Trie.segments, Trie.Put. destruct (segmenter key 0%Z) as [part i].
  apply Put_loop_keys_in.
Qed.

Lemma segments_from_nonempty fuel key part i segs :
  segments_from fuel key part i = Some segs → Forall (λ part, part ≠ "") segs.*1.
Proof.
  revert part i segs. induction fuel as [|fuel IH]; intros part i segs;
    rewrite segments_from_unfold; case_decide as Hpart; try done.
  - by intros [= <-].
  - by intros [= <-].
  - destruct (segments_from fuel _ _ _) as [segs'|] eqn:Hs; [|done]. intros [= <-].
    rewrite fmap_cons. constructor; [done|]. by eapply IH.
Qed.

(** [Put] returns only when the segments of the key have ended. *)
Lemma Put_segments fuel (trie trie' : PathTrie T) key value :
  Put fuel trie key value = Some trie' → is_Some (segments fuel key).
Proof.
  unfold Trie.segments, Trie.Put. destruct (segmenter key 0%Z) as [part i].
  revert trie trie' part i. induction fuel as [|fuel IH]; intros trie trie' part i;
    rewrite segments_from_unfold, Put_loop_unfold; case_decide;
    try done; try (intros _; by eexists).
  destruct (Put_loop fuel _ _ _ _ _) eqn:HP; [|done]. intros _.
  apply fmap_is_Some. by eapply IH.
Qed.

(** No child Put creates is keyed by the empty segment. *)
Lemma Put_no_empty_key fuel (trie trie' : PathTrie T) key value :
  Put fuel trie key value = Some trie' →
  keys_in (λ part, part ≠ "") trie → keys_in (λ part, part ≠ "") trie'.
Proof.
  intros HPut. destruct (Put_segments _ _ _ _ _ HPut) as [segs Hs].
  eapply Put_keys_in; [done| |done].
  revert Hs. unfold Trie.segments. destruct (segmenter key 0%Z). apply segments_from_nonempty.
Qed.

Lemma canonical_NewPathTrie : canonical (NewPathTrie : PathTrie T).
Proof. intros path v Hv. by destruct path. Qed.

(** [Put] keeps a trie canonical when the segments of its key
    concatenate to the key. *)
Lemma Put_canonical fuel (trie trie' : PathTrie T) key value segs :
  segments fuel key = Some segs → join segs.*1 = key →
  Put fuel trie key value = Some trie' →
  canonical trie → canonical trie'.
Proof.
  intros Hs Hjoin HPut Hcan path v Hv.
  destruct (decide (path = segs.*1)) as [->|Hne].
  - exists fuel, segs. by rewrite Hjoin.
  - apply (Hcan path v). by rewrite <- (Put_keeps_other_values fuel trie trie' key value segs).
Qed.

Lemma pruned_newPathTrie : pruned (newPathTrie : PathTrie T).
Proof. by intros [|part path]. Qed.

Lemma Put_loop_pruned fuel (node node' : PathTrie T) key part i value :
  Put_loop fuel node key part i value = Some node' →
  pruned node → pruned node' ∧ prunable node' = false.
Proof.
  revert node node' part i. induction fuel as [|fuel IH]; intros node node' part i;
    rewrite Put_loop_unfold; case_decide as Hpart; try done.
  - intros [= <-] Hp. split; [|by apply bool_decide_eq_false; intros [[=] _]].
    intros [|p path] n; [done|]. apply (Hp (p :: path) n).
  - intros [= <-] Hp. split; [|by apply bool_decide_eq_false; intros [[=] _]].
    intros [|p path] n; [done|]. apply (Hp (p :: path) n).
  - destruct (Put_loop fuel _ _ _ _ _) as [child'|] eqn:HPut; [|done]. intros [= <-] Hp.
    destruct (IH _ _ _ _ HPut) as [Hchild Hnot].
    { destruct (Children node !! part) as [child|] eqn:Hc; simpl.
      - by eapply pruned_child.
      - apply pruned_newPathTrie. }
    split.
    + intros [|p path] n Hne; [done|]. simpl.
      destruct (decide (part = p)) as [<-|Hp'].
      * rewrite lookup_insert_eq. simpl. destruct path as [|p' path]; [by intros [= <-]|].
        by apply (Hchild (p' :: path) n).
      * rewrite lookup_insert_ne by done. by apply (Hp (p :: path) n).
    + apply bool_decide_eq_false. simpl. intros [_ Hdom].
      apply (not_elem_of_empty (C:=gset string) part). rewrite <- Hdom.
      apply elem_of_dom. rewrite lookup_insert_eq. eauto.
Qed.

(** [Put] keeps the pruning invariant. *)
Lemma Put_pruned fuel (trie trie' : PathTrie T) key value :
  Put fuel trie key value = Some trie' → pruned trie → pruned trie'.
Proof.
  unfold Trie.Put. destruct (segmenter key 0%Z) as [part i].
  intros HPut Hp. by destruct (Put_loop_pruned _ _ _ _ _ _ _ HPut Hp).
Qed.

(** *** The invariants after Merge and Delete *)

Lemma settled_pruned (trie : PathTrie T) : settled trie → pruned trie.
Proof.
  intros Hs path node Hne Hn. destruct (Hs path node Hne Hn) as [v Hv].
  apply bool_decide_eq_false. rewrite Hv. by intros [[=] _].
Qed.

(** [Merge] establishes the pruning invariant. *)
Lemma Merge_pruned (trie : PathTrie T) : pruned (Merge trie).
Proof. apply settled_pruned, Merge_settles. Qed.

(** [Merge] creates no child of the root under the empty segment. *)
Lemma Merge_no_empty_key (trie : PathTrie T) :
  keys_in (λ part, part ≠ "") trie → Children (Merge trie) !! "" = None.
Proof.
  intros Hkeys. apply eq_None_not_Some. intros Hk.
  destruct (Merge_keys_led _ trie "" Hkeys Hk) as (a & rest & Ha & Heq).
  symmetry in Heq. by destruct a.
Qed.

Lemma Delete_loop_pruned (node node' : PathTrie T) key part i removed :
  Delete_loop node key part i = Some (removed, node') → pruned node → pruned node'.
Proof.
  revert node' part i removed. induction node as [node IH] using PathTrie_children_ind.
  intros node' part i removed. rewrite Delete_loop_unfold. case_decide.
  - intros [= <- <-] Hp [|p path] n; [done|]. apply (Hp (p :: path) n).
  - destruct (Children node !! part) as [child|] eqn:Hc; simpl; [|done].
    destruct (Delete_loop child key _ _) as [[removed' child']|] eqn:HD; simpl; [|done].
    intros [= <- <-] Hp. destruct (pruned_child _ _ _ Hp Hc) as [_ Hpc].
    pose proof (IH part child Hc _ _ _ _ HD Hpc) as Hchild.
    intros [|p path] n Hne; [done|]. simpl. destruct (prunable child') eqn:Hprunable.
    + destruct (decide (part = p)) as [<-|Hp']; [by rewrite lookup_delete_eq|].
      rewrite lookup_delete_ne by done. by apply (Hp (p :: path) n).
    + destruct (decide (part = p)) as [<-|Hp'].
      * rewrite lookup_insert_eq. simpl. destruct path as [|p' path]; [by intros [= <-]|].
        by apply (Hchild (p' :: path) n).
      * rewrite lookup_insert_ne by done. by apply (Hp (p :: path) n).
Qed.

(** [Delete] keeps the pruning invariant. *)
Lemma Delete_pruned (trie : PathTrie T) key : pruned trie → pruned (Delete trie key).2.
Proof.
  unfold Trie.Delete. destruct (segmenter key 0%Z) as [part i]. intros Hp.
  destruct (Delete_loop trie key part i) as [[removed trie']|] eqn:HD; simpl; [|done].
  by eapply Delete_loop_pruned.
Qed.

(** *** Shapes of tries, checked on the list of their nodes *)

Lemma nodes_unfold (trie : PathTrie T) :
  nodes trie =
    ([], trie) ::
    (range_entries (Children trie) ≫= λ pc, prod_map (cons pc.1) id <$> nodes pc.2).
Proof.
  destruct trie as [v ch]; simpl. f_equal.
  rewrite range_fold, range_entries_fmap, foldl_fmap.
  exact (foldl_app_bind (λ pc, prod_map (cons pc.1) id <$> nodes pc.2) _ []).
Qed.

Lemma elem_of_nodes (trie : PathTrie T) path node :
  (path, node) ∈ nodes trie ↔ node_at trie path = Some node.
Proof.
  revert path. induction trie as [trie IH] using PathTrie_children_ind. intros path.
  rewrite nodes_unfold, elem_of_cons, list_elem_of_bind. split.
  - intros [[= -> ->]|([part child] & Hin & Hpc)]; [done|].
    apply elem_of_range_entries in Hpc.
    apply list_elem_of_fmap in Hin as ([p n] & [= -> ->] & Hin).
    simpl in *. rewrite Hpc; simpl. by apply (IH part child Hpc).
  - destruct path as [|part path]; simpl.
    + intros [= ->]. by left.
    + destruct (Children trie !! part) as [child|] eqn:Hpc; simpl; [|done]. intros Hn.
      right. exists (part, child). split; [|by apply elem_of_range_entries].
      apply list_elem_of_fmap. exists (path, node). split; [done|].
      by apply (IH part child Hpc).
Qed.

Lemma keys_in_all_keys (P : string → Prop) (trie : PathTrie T) :
  Forall P (all_keys trie) → keys_in P trie.
Proof.
  rewrite Forall_forall. intros Hall path node part Hn%elem_of_nodes Hpart.
  apply Hall. apply list_elem_of_bind. exists (path, node). split; [|done]. simpl.
  by rewrite range_keys_perm, elem_of_elements, elem_of_dom.
Qed.

Lemma pruned_nodes (trie : PathTrie T) :
  Forall (λ pn, pn.1 = [] ∨ prunable pn.2 = false) (nodes trie) → pruned trie.
Proof.
  rewrite Forall_forall. intros Hall path node Hne Hn%elem_of_nodes.
  by destruct (Hall _ Hn).
Qed.

Lemma nearest_node_at (trie : PathTrie T) path node :
  nearest trie path node → node_at trie path = Some node.
Proof.
  revert trie. induction path as [|part path IH]; intros trie; simpl; [done|].
  intros (child & -> & Hnear). simpl. destruct (Value child).
  - by destruct Hnear as [-> ->].
  - by apply IH.
Qed.

Lemma distinct_keys_nodes (trie : PathTrie T) :
  NoDup (join <$> (nodes trie).*1) → distinct_keys trie.
Proof.
  intros Hnd path1 node1 path2 node2 H1%nearest_node_at%elem_of_nodes
    H2%nearest_node_at%elem_of_nodes Hjoin.
  assert (∀ l : list (list string), NoDup (join <$> l) →
            path1 ∈ l → path2 ∈ l → path1 = path2) as Hinj.
  { induction l as [|p l IHl]; [by intros _ ?%elem_of_nil|].
    rewrite fmap_cons, NoDup_cons, !elem_of_cons, list_elem_of_fmap.
    intros [Hp Hl] [->|Hin1] [->|Hin2]; try done; [| |by apply IHl].
    - destruct Hp. exists path2. by rewrite Hjoin.
    - destruct Hp. by exists path1. }
  apply (Hinj _ Hnd); apply list_elem_of_fmap; [by exists (path1, node1)|by exists (path2, node2)].
Qed.

End Properties.

(** ** Tries of numbers under the default segmenter *)

Import Trie.

Lemma in_order_perm (X : gset string) : in_order X ≡ₚ elements X.
Proof. reflexivity. Defined.

Example abc_built :
  (t ← Put PathSegmenter 3 NewPathTrie "/a/b" 1;
   t ← Put PathSegmenter 3 t "/a/c" 2;
   Put PathSegmenter 3 t "/a" 3) = Some abc.
Proof. vm_compute. reflexivity. Qed.

Example chain_built :
  (t ← Put PathSegmenter 4 NewPathTrie "/a" 3; Put PathSegmenter 4 t "/a/b/c" 1) = Some chain.
Proof. vm_compute. reflexivity. Qed.

Example deep_built : Put PathSegmenter 3 NewPathTrie "/a/b" 1 = Some deep.
Proof. vm_compute. reflexivity. Qed.

Example deep_merged_built : Merge in_order deep = deep_merged.
Proof. vm_compute. reflexivity. Qed.

Example collided_built : Put PathSegmenter 3 deep_merged "/a/b" 5 = Some collided.
Proof. vm_compute. reflexivity. Qed.

Example abc_Get :
  Get 0 PathSegmenter abc "/a" = Return 3
  ∧ Get 0 PathSegmenter abc "/a/b" = Return 1
  ∧ Get 0 PathSegmenter abc "/a/x" = Return 0.
Proof. vm_compute. done. Qed.

Example abc_Walk :
  Walk_visits in_order abc = [("/a", 3); ("/a/c", 2); ("/a/b", 1)].
Proof. vm_compute. reflexivity. Qed.


(** ** The default segmenter keeps the contract *)

Lemma index_bounds n s1 s m :
  String.index n s1 s = Some m → s1 ≠ "" → n ≤ m < String.length s.
Proof.
  revert n m. induction s as [|c s IH]; intros n m.
  - destruct n, s1; simpl; done.
  - destruct n as [|n].
    + change (String.index 0 s1 (String c s))
        with (if String.prefix s1 (String c s) then Some 0
              else match String.index 0 s1 s with Some n => Some (S n) | None => None end).
      destruct (String.prefix s1 (String c s)); [intros [= <-] _; simpl; lia|].
      destruct (String.index 0 s1 s) as [m'|] eqn:Hi; [|done]. intros [= <-] Hne.
      apply IH in Hi; [|done]. simpl. lia.
    + change (String.index (S n) s1 (String c s))
        with (match String.index n s1 s with Some n => Some (S n) | None => None end).
      destruct (String.index n s1 s) as [m'|] eqn:Hi; [|done]. intros [= <-] Hne.
      apply IH in Hi; [|done]. simpl. lia.
Qed.

Lemma substring_all s : String.substring 0 (String.length s) s = s.
Proof. induction s as [|c s IH]; simpl; [done|]. by rewrite IH. Qed.

Lemma substring_length a n s :
  a + n ≤ String.length s → String.length (String.substring a n s) = n.
Proof.
  revert a n. induction s as [|c s IH]; intros [|a] [|n]; simpl; try done; try lia.
  - intros ?. rewrite IH; lia.
  - intros ?. apply (IH a 0). lia.
  - intros ?. apply (IH a (S n)). lia.
Qed.

Lemma substring_split a m s :
  a ≤ m ≤ String.length s →
  String.substring a (m - a) s +:+ String.substring m (String.length s - m) s
  = String.substring a (String.length s - a) s.
Proof.
  revert a m. induction s as [|c s IH]; intros a m.
  - simpl. intros ?. assert (a = 0) as -> by lia. assert (m = 0) as -> by lia. done.
  - destruct a as [|a]; destruct m as [|m]; simpl; try lia.
    + done.
    + intros ?. rewrite append_cons. f_equal.
      pose proof (IH 0 m) as Hs. rewrite !Nat.sub_0_r in Hs. apply Hs. lia.
    + intros ?. apply IH. lia.
Qed.

Lemma PathSegmenter_end key : PathSegmenter key (-1) = ("", (-1)%Z).
Proof. unfold PathSegmenter. by rewrite decide_True by lia. Qed.

Lemma PathSegmenter_at key (a : nat) :
  a < String.length key →
  PathSegmenter key (Z.of_nat a) =
    match String.index (S a) "/" key with
    | None => (slice_from key a, (-1)%Z)
    | Some next => (String.substring a (next - a) key, Z.of_nat next)
    end.
Proof.
  intros Ha. unfold PathSegmenter. rewrite decide_False by (unfold len; lia).
  by rewrite Nat2Z.id.
Qed.

(** From an index into the key, the default segmenter yields the
    non-empty segments that make up the rest of the key, the last one
    marked by [-1]. *)
Lemma PathSegmenter_segments_from key (a fuel : nat) :
  a < String.length key → String.length key - a ≤ fuel →
  ∃ segs,
    segments_from PathSegmenter fuel key
      (PathSegmenter key (Z.of_nat a)).1 (PathSegmenter key (Z.of_nat a)).2 = Some segs
    ∧ segs ≠ []
    ∧ well_marked key segs
    ∧ join segs.*1 = slice_from key a.
Proof.
  revert a. induction fuel as [|fuel IH]; intros a Ha Hfuel; [lia|].
  rewrite PathSegmenter_at by done.
  destruct (String.index (S a) "/" key) as [next|] eqn:Hi; cbn [fst snd].
  - apply index_bounds in Hi as Hnext; [|done].
    assert (String.substring a (next - a) key ≠ "") as Hpart.
    { intros Heq. pose proof (substring_length a (next - a) key) as Hl.
      rewrite Heq in Hl. simpl in Hl. lia. }
    destruct (IH next) as (segs & Hs & Hne & Hm & Hjoin); [lia..|].
    exists ((String.substring a (next - a) key, Z.of_nat next) :: segs). split_and!; [|done| |].
    + rewrite segments_from_unfold, decide_False by done. by rewrite Hs.
    + simpl. rewrite decide_False by done. split; [unfold len; lia|done].
    + rewrite fmap_cons. simpl. fold (join segs.*1). rewrite Hjoin.
      apply substring_split. lia.
  - assert (slice_from key a ≠ "") as Hpart.
    { intros Heq. pose proof (substring_length a (String.length key - a) key) as Hl.
      unfold slice_from in Heq. rewrite Heq in Hl. simpl in Hl. lia. }
    exists [(slice_from key a, (-1)%Z)]. split_and!; [|done..|].
    + rewrite segments_from_unfold, decide_False by done. rewrite PathSegmenter_end. simpl.
      by rewrite segments_from_unfold, decide_True.
    + unfold join. simpl. apply append_empty_r.
Qed.

(** Under the default segmenter every key has its segments, within as
    many rounds as the key has bytes; they keep the contract of the next
    index, and they concatenate to the key. *)
Lemma PathSegmenter_segments key :
  ∃ segs,
    segments PathSegmenter (String.length key) key = Some segs
    ∧ well_marked key segs
    ∧ join segs.*1 = key.
Proof.
  unfold segments. destruct (decide (String.length key = 0)) as [Hlen|Hlen].
  - destruct key; [|done]. exists []. by vm_compute.
  - destruct (PathSegmenter_segments_from key 0 (String.length key)) as (segs & Hs & _ & Hm & Hj);
      [lia..|].
    exists segs. change (Z.of_nat 0) with 0%Z in Hs.
    destruct (PathSegmenter key 0) as [part i]. split_and!; [done..|].
    rewrite Hj. unfold slice_from. rewrite Nat.sub_0_r. apply substring_all.
Qed.
Lemma PathSegmenter_segments_nonempty key :
  key ≠ "" →
  ∃ segs,
    segments PathSegmenter (String.length key) key = Some segs
    ∧ segs ≠ []
    ∧ well_marked key segs.
Proof.
  intros Hkey. unfold segments.
  destruct (PathSegmenter_segments_from key 0 (String.length key)) as (segs & Hs & Hne & Hm & _).
  - destruct key; [done|]. simpl. lia.
  - lia.
  - exists segs. change (Z.of_nat 0) with 0%Z in Hs. by destruct (PathSegmenter key 0).
Qed.

(** *** The properties under the default segmenter *)

(** Under the default segmenter [Put] returns for every key, within as
    many rounds as the key has bytes, and [Get] then returns the value
    put. *)
Lemma Put_then_Get_default {T} (zero : T) (trie : PathTrie T) key value :
  ∃ trie', Put PathSegmenter (String.length key) trie key value = Some trie'
           ∧ Get zero PathSegmenter trie' key = Return value.
Proof.
  destruct (Put_stores PathSegmenter (String.length key) trie key value)
    as (trie' & HPut & Hstored).
  { destruct (PathSegmenter_segments key) as (segs & -> & _). by eexists. }
  exists trie'. split; [done|]. by apply Get_stored.
Qed.

(** Under the default segmenter [Put] keeps a trie canonical, and
    [Walk] visits every stored key under that key. *)
Lemma Put_canonical_default {T} fuel (trie trie' : PathTrie T) key value :
  Put PathSegmenter fuel trie key value = Some trie' →
  canonical PathSegmenter trie → canonical PathSegmenter trie'.
Proof.
  intros HPut. destruct (Put_segments _ _ _ _ _ _ HPut) as [segs Hs].
  destruct (PathSegmenter_segments key) as (segs' & Hs' & _ & Hjoin).
  rewrite <- (segments_agree _ _ _ _ _ _ Hs Hs') in Hjoin.
  exact (Put_canonical PathSegmenter fuel trie trie' key value segs Hs Hjoin HPut).
Qed.

Lemma Walk_default_visits_stored {T} range_keys (trie : PathTrie T) key v :
  (∀ X, range_keys X ≡ₚ elements X) →
  stored_at PathSegmenter trie key = Some v → (key, v) ∈ Walk_visits range_keys trie.
Proof.
  intros Hperm Hv. destruct (PathSegmenter_segments key) as (segs & Hs & _ & Hjoin).
  rewrite (Walk_visits_holders range_keys Hperm).
  apply list_elem_of_fmap. exists (segs.*1, v). simpl. split; [by rewrite Hjoin|].
  apply (elem_of_holders range_keys Hperm).
  by rewrite <- (stored_at_value_at PathSegmenter _ _ key segs Hs).
Qed.

(** Under the default segmenter [WalkPath] visits the chain of every
    key, on every trie whose root has no child under the empty
    segment. *)
Lemma WalkPath_default_chain {T St Err} (walker : WalkFunc T St Err)
    (trie : PathTrie T) key s :
  Children trie !! "" = None →
  ∃ segs,
    segments PathSegmenter (String.length key) key = Some segs
    ∧ WalkPath PathSegmenter walker trie key s
      = ended false (run walker (path_visits trie key segs) s).
Proof.
  intros Hroot. destruct (PathSegmenter_segments key) as (segs & Hs & Hm & _).
  exists segs. split; [done|]. apply WalkPath_root. intros s'.
  unfold segments in Hs. destruct (PathSegmenter key 0) as [part i].
  by eapply WalkPath_loop_segments.
Qed.

(** Under the default segmenter no slice of [WalkPath] is out of range. *)
Lemma WalkPath_default_never_panics {T} (trie : PathTrie T) key :
  WalkPath_panics PathSegmenter trie key = false.
Proof.
  unfold WalkPath_panics. destruct (decide (key = "")) as [->|Hkey].
  - unfold WalkPath. change (PathSegmenter "" 0) with ("", (-1)%Z).
    assert (∀ calls, (WalkPath_loop PathSegmenter recorder trie "" "" (-1) calls).2 ≠ Panic)
      as Hloop.
    { intros calls. rewrite WalkPath_loop_unfold.
      destruct (Children trie !! "") as [child|]; [|done].
      rewrite !decide_True by done. by destruct (Value child). }
    destruct (Value trie) as [v|]; simpl.
    + specialize (Hloop ([] ++ [("", v)])). by destruct (WalkPath_loop _ _ _ _ _ _ _).2.
    + specialize (Hloop []). by destruct (WalkPath_loop _ _ _ _ _ _ _).2.
  - destruct (PathSegmenter_segments_nonempty key Hkey) as (segs & Hs & Hne & Hm).
    rewrite (WalkPath_root PathSegmenter recorder trie key [] (chain_visits trie key segs)).
    + by rewrite run_recorder.
    + intros s'. unfold segments in Hs. destruct (PathSegmenter key 0) as [part i].
      by eapply WalkPath_loop_segments.
Qed.

(** So under the default segmenter [WalkPath] returns nil unless the
    walker returned an error. *)
Lemma WalkPath_default_run {T St Err} (walker : WalkFunc T St Err) (trie : PathTrie T) key s :
  WalkPath PathSegmenter walker trie key s
  = ended false (run walker (WalkPath_visits PathSegmenter trie key) s).
Proof. by rewrite WalkPath_run, WalkPath_default_never_panics. Qed.

(** ** The claims on sample tries *)

Lemma has_slash_app (a b : string) : has_slash (a +:+ b) = has_slash a || has_slash b.
Proof.
  induction a as [|c a IH]; [done|]. rewrite append_cons. simpl.
  by destruct (Ascii.eqb c "/").
Qed.

Lemma slash_segment_indivisible : indivisible slash_segment.
Proof.
  intros [|c a] [|c' b] rest; try done. intros [-> Ha] [-> Hb].
  rewrite !append_cons. intros [_ Hab]. by rewrite has_slash_app, orb_true_r in Hab.
Qed.

(** *** C1 *)

Lemma Put_then_Get_witness :
  ∃ trie', Put PathSegmenter 3 abc "/a/b" 7 = Some trie'
           ∧ Get 0 PathSegmenter trie' "/a/b" = Return 7.
Proof.
  apply (Put_then_Get 0 PathSegmenter 3 abc "/a/b" 7). vm_compute. eexists. reflexivity.
Defined.

(** *** C2 *)

(** C2, as the code has it. On a fresh trie, and wherever the segments
    of the key end at a node without value, [Get] dereferences the nil
    [node.Value] and panics: it does not return the zero value. (A
    missing child does give the zero value.) *)
Theorem Get_panics_on_nil_Value :
  Get 0 PathSegmenter (NewPathTrie : PathTrie nat) "" = Panic
  ∧ Get 0 PathSegmenter chain "/a/b" = Panic
  ∧ Get 0 PathSegmenter chain "/a/x" = Return 0.
Proof. vm_compute. done. Qed.

(** *** C3 *)

(** C3 fails: the value [1] is stored at ["/a/b"], and after [Merge]
    the lookup of ["/a/b"] finds no child ["/a"] and returns zero. *)
Lemma Merge_loses_the_key :
  stored_at PathSegmenter deep "/a/b" = Some 1
  ∧ Get 0 PathSegmenter deep "/a/b" = Return 1
  ∧ Get 0 PathSegmenter (Merge in_order deep) "/a/b" = Return 0.
Proof. vm_compute. done. Qed.

Lemma Merge_preserves_Get_on_valued_paths_witness :
  Get 0 PathSegmenter mixed "/a/b" = Return 1
  ∧ Get 0 PathSegmenter (Merge in_order mixed) "/a/b" = Return 1.
Proof.
  apply (Merge_preserves_Get_on_valued_paths 0 PathSegmenter in_order in_order_perm
           slash_segment 3 mixed "/a/b" [("/a", 2%Z); ("/b", (-1)%Z)] 1).
  - exact slash_segment_indivisible.
  - apply (keys_in_all_keys in_order in_order_perm). vm_compute. repeat constructor.
  - vm_compute. reflexivity.
  - simpl. eexists. split; [vm_compute; reflexivity|]. split; [by eexists|].
    eexists. split; [vm_compute; reflexivity|]. split; [by eexists|]. reflexivity.
Defined.

(** *** C4 *)

(** C4, as the code has it. An insert and a replace at the same key both
    go through, and neither yields anything but the updated trie: [Put]
    has no result that tells them apart. *)
Theorem Put_insert_then_replace :
  ∃ trie1 trie2,
    Put PathSegmenter 2 (NewPathTrie : PathTrie nat) "/a" 1 = Some trie1
    ∧ Get 0 PathSegmenter trie1 "/a" = Return 1
    ∧ Put PathSegmenter 2 trie1 "/a" 2 = Some trie2
    ∧ Get 0 PathSegmenter trie2 "/a" = Return 2.
Proof. eexists _, _. vm_compute. done. Qed.

(** *** C5 *)


(** *** C6 *)

(** The example of the specification: with values at ["/a"] and
    ["/a/b/c"] but not at ["/a/b"], [WalkPath("/a/b/c")] calls the
    walker twice, on ["/a"] then on ["/a/b/c"]. *)
Lemma WalkPath_visits_the_chain_witness :
  WalkPath PathSegmenter recorder chain "/a/b/c" []
  = ([("/a", 3); ("/a/b/c", 1)], Return None).
Proof.
  rewrite (WalkPath_visits_the_chain PathSegmenter recorder 4 chain "/a/b/c"
             [("/a", 2%Z); ("/b", 4%Z); ("/c", (-1)%Z)] []).
  - vm_compute. reflexivity.
  - vm_compute. reflexivity.
  - vm_compute. intuition discriminate.
  - discriminate.
Defined.

(** *** C7 *)

(** On the trie of the example [Walk] visits ["/a"], ["/a/c"], ["/a/b"]
    in the order [in_order]; a walker that fails on the value [2] is
    called on the first two and not on the third, and its error is the
    result. *)
Lemma walks_stop_at_first_error_witness :
  Walk in_order stop_at_two abc [] = (["/a"; "/a/c"], Some "two")
  ∧ WalkPath PathSegmenter stop_at_two abc "/a/c" [] = (["/a"; "/a/c"], Return (Some "two"))
  ∧ WalkPath PathSegmenter stop_at_two abc "/a/b" [] = (["/a"; "/a/b"], Return None).
Proof.
  pose proof (walks_stop_at_first_error PathSegmenter in_order in_order_perm
                stop_at_two abc "/a/c" []) as [HWalk HWalkPath].
  pose proof (walks_stop_at_first_error PathSegmenter in_order in_order_perm
                stop_at_two abc "/a/b" []) as [_ HWalkPath'].
  rewrite HWalk, HWalkPath, HWalkPath'. vm_compute. done.
Defined.

(** *** C8 *)

Lemma Delete_absent_key_witness :
  Delete PathSegmenter chain "/a/b" = (false, chain)
  ∧ Delete PathSegmenter chain "/a/x" = (false, chain).
Proof.
  assert (pruned chain) as Hpruned.
  { apply (pruned_nodes in_order in_order_perm). vm_compute. repeat constructor; by right. }
  split; apply (Delete_absent_key PathSegmenter chain); try exact Hpruned;
    vm_compute; reflexivity.
Defined.

(** *** C9 *)

(** C9 fails where two nearest value-holding descendants have the same
    concatenated key. After [Put("/a/b", 1)], [Merge()], [Put("/a/b", 5)]
    the root has the child ["/a/b"] holding [1], and the child ["/a"]
    without value whose child ["/b"] holds [5]: two branches, both keyed
    ["/a/b"], and one entry in the result. *)
Lemma RecursiveDirectChildren_one_key_two_nodes :
  nearest collided ["/a/b"] (leaf 1)
  ∧ nearest collided ["/a"; "/b"] (leaf 5)
  ∧ ¬ (RecursiveDirectChildren in_order collided !! join ["/a/b"] = Some (leaf 1)
       ∧ RecursiveDirectChildren in_order collided !! join ["/a"; "/b"] = Some (leaf 5)).
Proof.
  split_and!.
  - simpl. exists (leaf 1). split; [vm_compute; reflexivity|done].
  - simpl. eexists. split; [vm_compute; reflexivity|]. simpl.
    exists (leaf 5). split; [vm_compute; reflexivity|done].
  - intros [H1 H5]. change (join ["/a"; "/b"]) with (join ["/a/b"]) in H5.
    rewrite H1 in H5. discriminate H5.
Qed.

(** The example of the specification, at the node ["/a"] of a trie with
    values only at ["/a/b/c"] and ["/a/x"]. *)
Lemma RecursiveDirectChildren_nearest_witness :
  RecursiveDirectChildren in_order fork !! "/b/c" = Some (leaf 1)
  ∧ RecursiveDirectChildren in_order fork !! "/x" = Some (leaf 2)
  ∧ dom (RecursiveDirectChildren in_order fork) = {[ "/b/c"; "/x" ]}.
Proof.
  assert (distinct_keys fork) as Hdistinct.
  { apply (distinct_keys_nodes in_order in_order_perm).
    apply (bool_decide_unpack _). vm_compute. exact I. }
  pose proof (RecursiveDirectChildren_nearest in_order in_order_perm fork Hdistinct) as Hrdc.
  split_and!.
  - apply Hrdc. exists ["/b"; "/c"]. split; [|reflexivity]. simpl.
    eexists. split; [vm_compute; reflexivity|]. simpl.
    exists (leaf 1). split; [vm_compute; reflexivity|done].
  - apply Hrdc. exists ["/x"]. split; [|reflexivity]. simpl.
    exists (leaf 2). split; [vm_compute; reflexivity|done].
  - vm_compute. reflexivity.
Defined.

(** *** C10 *)

(** C10, as the code has it. [Put("/a/b", 1)] on a fresh trie creates
    the node ["/a"] without value; [Get("/a")], which returned the zero
    value before, then dereferences its nil [Value] and panics. *)
Theorem Put_changes_Get_of_a_new_prefix :
  Get 0 PathSegmenter (NewPathTrie : PathTrie nat) "/a" = Return 0
  ∧ Put PathSegmenter 3 NewPathTrie "/a/b" 1 = Some deep
  ∧ Get 0 PathSegmenter deep "/a" = Panic.
Proof. vm_compute. done. Qed.
